(** * lang_stats: a shallow embedding of [.github/scripts/lang_stats.py]

    The script fetches per-repository language byte counts, sums them per
    language, renders a markdown table and two SVG images, and patches the
    table into the README between two marker comments.

    Python values are modelled as the script has them:
    - a [str] is the list of its Unicode code points ([pystr]);
    - an [int] is a [Z];
    - a [float] is an IEEE 754 binary64 value ([spec_float] at precision 53);
    - an exception is a value of [exn], and a computation that may raise
      returns a [result];
    - the insertion-ordered [dict] that accumulates the totals is an
      association list with one entry per key, in insertion order. *)

From Stdlib Require Import ZArith NArith List Lia Ascii String.
From Stdlib Require Import Floats.SpecFloat.
From Stdlib Require Import Sorting.Sorted.
From stdpp Require Import base option list gmap.
From Equations Require Import Equations.

Local Open Scope Z_scope.
#[local] Set Warnings "-register-all".

(** ** Python strings *)

Definition pystr := list N.

(** An ASCII literal as a Python string. *)
Definition py (s : string) : pystr :=
  map N_of_ascii (list_ascii_of_string s).


Definition nl : pystr := [10%N].
Definition backslash : N := 92%N.

(** [str.isspace] on one code point, as [str.rstrip()] uses it. *)
Definition isspace (c : N) : bool :=
  ((9 <=? c) && (c <=? 13) || (28 <=? c) && (c <=? 32)
   || (c =? 133) || (c =? 160) || (c =? 5760)
   || (8192 <=? c) && (c <=? 8202)
   || (c =? 8232) || (c =? 8233) || (c =? 8239) || (c =? 8287)
   || (c =? 12288))%N.

(** [s.rstrip()]: drop the trailing run of whitespace. *)
Fixpoint rstrip (s : pystr) : pystr :=
  match s with
  | [] => []
  | c :: s' =>
    match rstrip s' with
    | [] => if isspace c then [] else [c]
    | r => c :: r
    end
  end.

(** [sep.join(parts)]. *)
Fixpoint join (sep : pystr) (parts : list pystr) : pystr :=
  match parts with
  | [] => []
  | [p] => p
  | p :: rest => p ++ sep ++ join sep rest
  end.

(** [c * n] for a one-character string [c]; a negative count gives the
    empty string. *)
Definition repeat_char (c : N) (n : Z) : pystr := replicate (Z.to_nat n) c.

(** ** Decoded JSON and exceptions *)

Inductive json :=
| JNull
| JBool (b : bool)
| JInt (z : Z)
| JFloat (f : spec_float)
| JStr (s : pystr)
| JArr (items : list json)
| JObj (fields : list (pystr * json)).

Inductive exn :=
| URLError
| JSONDecodeError
| RuntimeError (payload : json)
| KeyError (key : pystr)
| TypeError
| AttributeError
| OverflowError
| ValueError
| ZeroDivisionError
| ReError.

Inductive result (A : Type) :=
| Ok (a : A)
| Raise (e : exn).
Arguments Ok {A} a.
Arguments Raise {A} e.

Definition bind {A B} (r : result A) (k : A -> result B) : result B :=
  match r with
  | Ok a => k a
  | Raise e => Raise e
  end.

Definition rmap {A B} (f : A -> B) (r : result A) : result B :=
  bind r (fun a => Ok (f a)).

Notation "'let*' x := r 'in' k" := (bind r (fun x => k))
  (at level 10, x name, r at level 100, k at level 200).

Fixpoint mapM {A B} (f : A -> result B) (l : list A) : result (list B) :=
  match l with
  | [] => Ok []
  | a :: l' => let* b := f a in let* bs := mapM f l' in Ok (b :: bs)
  end.

Definition is_ok {A} (r : result A) : bool :=
  match r with Ok _ => true | Raise _ => false end.

(** ** The README patch: [update_readme] *)

Module Readme.

Definition START : pystr := py "<!-- LANGUAGES:START -->".
Definition END_ : pystr := py "<!-- LANGUAGES:END -->".

(** Does [s] begin with the literal [pat]? *)
Fixpoint starts_with (pat s : pystr) : bool :=
  match pat, s with
  | [], _ => true
  | _ :: _, [] => false
  | p :: pat', c :: s' => (p =? c)%N && starts_with pat' s'
  end.

(** The first occurrence of the literal [pat] in [s]: the text before it
    and the text after it. *)
Fixpoint find (pat s : pystr) : option (pystr * pystr) :=
  if starts_with pat s then Some ([], drop (length pat) s)
  else match s with
       | [] => None
       | c :: s' =>
         match find pat s' with
         | Some (before, after) => Some (c :: before, after)
         | None => None
         end
       end.

(** The pattern [<!-- LANGUAGES:START -->.*?<!-- LANGUAGES:END -->] with
    [re.DOTALL], tried at the beginning of [s]: the start literal, then the
    lazy [.*?] extended one character at a time until the end literal
    matches.  The result is the text between the markers and the text after
    the match. *)
Definition match_here (s : pystr) : option (pystr * pystr) :=
  if starts_with START s then find END_ (drop (length START) s) else None.

(** [re.search(pattern, s, flags=re.DOTALL)]: the pattern is tried at each
    position from the left.  A match is returned as the text before it, the
    text between its markers and the text after it. *)
Fixpoint re_search (s : pystr) : option (pystr * pystr * pystr) :=
  match match_here s with
  | Some (inner, post) => Some ([], inner, post)
  | None =>
    match s with
    | [] => None
    | c :: s' =>
      match re_search s' with
      | Some (pre, inner, post) => Some (c :: pre, inner, post)
      | None => None
      end
    end
  end.

(** [pat in s] for strings. *)
Fixpoint contains (pat s : pystr) : bool :=
  starts_with pat s ||
  match s with
  | [] => false
  | _ :: s' => contains pat s'
  end.

(** A parsed replacement template: literal characters and references to
    the whole match (the pattern has no capture group, so group 0 is the only
    group there is). *)
Inductive piece :=
| Lit (c : N)
| Group0.

Definition is_digit (c : N) : bool := ((48 <=? c) && (c <=? 57))%N.
Definition is_octdigit (c : N) : bool := ((48 <=? c) && (c <=? 55))%N.
Definition is_ascii_letter (c : N) : bool :=
  ((65 <=? c) && (c <=? 90) || (97 <=? c) && (c <=? 122))%N.
Definition digit_val (c : N) : N := (c - 48)%N.

(** The single-letter escapes of a replacement template. *)
Definition escape_char (c : N) : option N :=
  (if c =? 97 then Some 7 else if c =? 98 then Some 8
   else if c =? 102 then Some 12 else if c =? 110 then Some 10
   else if c =? 114 then Some 13 else if c =? 116 then Some 9
   else if c =? 118 then Some 11 else if c =? 92 then Some 92
   else None)%N.

(** A group name between [\g<] and [>] that is made of ASCII zeros only
    denotes group 0. *)
Definition names_group0 (name : pystr) : bool :=
  match name with
  | [] => false
  | _ => forallb (fun c => (c =? 48)%N) name
  end.

(** [re]'s parsing of the replacement string of [re.sub] (CPython 3.12,
    [re._parser.parse_template]) for a pattern without capture groups.  Every
    failure, whether [re.error] or [IndexError], is [ReError] here.
    - a backslash at the very end is an error;
    - [\g<name>] is the whole match when [name] is a decimal zero, an error
      otherwise (no such group, bad name, missing bracket);
    - [\0], [\0d], [\0dd] are octal escapes;
    - [\ddd] with three octal digits is an octal escape (at most [0o377]),
      any other [\d] or [\dd] refers to a group that does not exist;
    - [\a \b \f \n \r \t \v \\] are the usual characters;
    - a backslash before any other ASCII letter is an error;
    - a backslash before anything else stays, with that character. *)
Fixpoint parse_template (t : pystr) : result (list piece) :=
  match t with
  | [] => Ok []
  | c :: t1 =>
    if (c =? backslash)%N then
      match t1 with
      | [] => Raise ReError
      | e :: t2 =>
        if (e =? 103)%N then
          match t2 with
          | lt :: t3 => if (lt =? 60)%N then parse_name [] t3 else Raise ReError
          | [] => Raise ReError
          end
        else if (e =? 48)%N then
          match t2 with
          | d1 :: t3 =>
            if is_octdigit d1 then
              match t3 with
              | d2 :: t4 =>
                if is_octdigit d2 then
                  rmap (cons (Lit (N.land (digit_val d1 * 8 + digit_val d2) 255)))
                       (parse_template t4)
                else rmap (cons (Lit (digit_val d1))) (parse_template t3)
              | [] => rmap (cons (Lit (digit_val d1))) (parse_template t3)
              end
            else rmap (cons (Lit 0%N)) (parse_template t2)
          | [] => rmap (cons (Lit 0%N)) (parse_template t2)
          end
        else if is_digit e then
          match t2 with
          | d1 :: d2 :: t4 =>
            if is_octdigit e && is_octdigit d1 && is_octdigit d2 then
              let v := (digit_val e * 64 + digit_val d1 * 8 + digit_val d2)%N in
              if (255 <? v)%N then Raise ReError
              else rmap (cons (Lit v)) (parse_template t4)
            else Raise ReError
          | _ => Raise ReError
          end
        else
          match escape_char e with
          | Some x => rmap (cons (Lit x)) (parse_template t2)
          | None =>
            if is_ascii_letter e then Raise ReError
            else rmap (fun ps => Lit c :: Lit e :: ps) (parse_template t2)
          end
      end
    else rmap (cons (Lit c)) (parse_template t1)
  end
with parse_name (name : pystr) (t : pystr) : result (list piece) :=
  match t with
  | [] => Raise ReError
  | c :: t' =>
    if (c =? 62)%N then
      if names_group0 name then rmap (cons Group0) (parse_template t')
      else Raise ReError
    else if (c =? backslash)%N then Raise ReError
    else parse_name (name ++ [c]) t'
  end.

(** The replacement text for one match [m]. *)
Definition expand (tp : list piece) (m : pystr) : pystr :=
  flat_map (fun p => match p with Lit c => [c] | Group0 => m end) tp.


Lemma starts_with_app (pat s : pystr) :
  starts_with pat s = true -> s = pat ++ drop (length pat) s.
Proof.
  revert s; induction pat as [|p pat IH]; intros [|c s] H; simpl in *;
    try done.
  apply andb_prop in H as [Hc Hs]. apply N.eqb_eq in Hc; subst c.
  f_equal. by apply IH.
Qed.

Lemma find_eq (pat s : pystr) :
  find pat s =
  if starts_with pat s then Some ([], drop (length pat) s)
  else match s with
       | [] => None
       | c :: s' =>
         match find pat s' with
         | Some (before, after) => Some (c :: before, after)
         | None => None
         end
       end.
Proof. by destruct s. Qed.

Lemma re_search_eq (s : pystr) :
  re_search s =
  match match_here s with
  | Some (inner, post) => Some ([], inner, post)
  | None =>
    match s with
    | [] => None
    | c :: s' =>
      match re_search s' with
      | Some (pre, inner, post) => Some (c :: pre, inner, post)
      | None => None
      end
    end
  end.
Proof. by destruct s. Qed.

Lemma find_Some (pat s before after : pystr) :
  find pat s = Some (before, after) -> s = before ++ pat ++ after.
Proof.
  revert before after; induction s as [|c s IH]; intros before after;
    rewrite find_eq; destruct (starts_with pat _) eqn:E;
    try (intros [= <- <-]; apply starts_with_app in E; exact E); try done.
  destruct (find pat s) as [[b a]|]; [|done].
  intros [= <- <-]. simpl. f_equal. by apply IH.
Qed.

Lemma match_here_Some (s inner post : pystr) :
  match_here s = Some (inner, post) -> s = START ++ inner ++ END_ ++ post.
Proof.
  unfold match_here. destruct (starts_with START s) eqn:E; [|done].
  intros H%find_Some. apply starts_with_app in E. congruence.
Qed.

Lemma re_search_Some (s pre inner post : pystr) :
  re_search s = Some (pre, inner, post) ->
  s = pre ++ START ++ inner ++ END_ ++ post.
Proof.
  revert pre; induction s as [|c s IH]; intros pre;
    rewrite re_search_eq; destruct (match_here _) as [[i p]|] eqn:E;
    try (intros [= <- <- <-]; by apply match_here_Some in E); try done.
  destruct (re_search s) as [[[p i] q]|]; [|done].
  intros [= <- <- <-]. simpl. f_equal. by apply IH.
Qed.

Lemma re_search_shorter (s pre inner post : pystr) :
  re_search s = Some (pre, inner, post) -> (length post < length s)%nat.
Proof.
  intros ->%re_search_Some. rewrite !length_app.
  change (length START) with 24%nat. lia.
Qed.

Definition inspect {A} (a : A) : {b | a = b} := exist _ a eq_refl.

(** [re.sub] once the template is parsed: every match found from left to
    right is replaced, and the search resumes where the match ended. *)
Equations? sub_all (tp : list piece) (s : pystr) : pystr
  by wf (length s) lt :=
  sub_all tp s with inspect (re_search s) := {
    | exist _ None _ := s
    | exist _ (Some (pre, inner, post)) _ :=
        pre ++ expand tp (START ++ inner ++ END_) ++ sub_all tp post }.
Proof. by eapply re_search_shorter. Qed.

(** [re.sub(pattern, repl, s, flags=re.DOTALL)]: the template is parsed
    first, so a bad template raises whatever [s] is. *)
Definition re_sub (repl s : pystr) : result pystr :=
  let* tp := parse_template repl in Ok (sub_all tp s).

(** The new marked block written for [new_block]. *)
Definition replacement (new_block : pystr) : pystr :=
  START ++ nl ++ new_block ++ nl ++ END_.

(** The text computed by [update_readme] (lines 147-153) from the text read
    and the new block. *)
Definition patch (text new_block : pystr) : result pystr :=
  match re_search text with
  | Some _ => re_sub (replacement new_block) text
  | None => Ok (rstrip text ++ nl ++ nl ++ replacement new_block ++ nl)
  end.

(** [update_readme]: [file] is the README as [read_text] decodes it, [None]
    when there is no such file; the result is the text handed to
    [write_text]. *)
Definition update_readme (file : option pystr) (new_block : pystr)
  : result pystr :=
  patch (default [] file) new_block.

(** *** Literal search *)

Lemma contains_eq (pat s : pystr) :
  contains pat s =
  starts_with pat s ||
  match s with [] => false | _ :: s' => contains pat s' end.
Proof. by destruct s. Qed.

Lemma starts_with_prefix (pat s : pystr) :
  starts_with pat s = true <-> pat `prefix_of` s.
Proof.
  split.
  - intros H. exists (drop (length pat) s). by apply starts_with_app.
  - intros [r ->]. induction pat as [|p pat IH]; [done|].
    simpl. by rewrite N.eqb_refl.
Qed.

Lemma starts_with_self_app (pat r : pystr) : starts_with pat (pat ++ r) = true.
Proof. apply starts_with_prefix. by exists r. Qed.

Lemma starts_with_app_l (pat a b : pystr) :
  starts_with pat a = true -> starts_with pat (a ++ b) = true.
Proof.
  rewrite !starts_with_prefix. intros H. by apply prefix_app_r.
Qed.

Lemma drop_self_app (pat r : pystr) : drop (length pat) (pat ++ r) = r.
Proof. by rewrite drop_app_length. Qed.

Lemma find_None_contains (pat s : pystr) :
  find pat s = None <-> contains pat s = false.
Proof.
  induction s as [|c s IH]; rewrite find_eq, contains_eq;
    destruct (starts_with pat _); simpl; try done.
  rewrite <- IH. by destruct (find pat s) as [[? ?]|].
Qed.

Lemma contains_app_l (pat a b : pystr) :
  contains pat (a ++ b) = false -> contains pat a = false.
Proof.
  induction a as [|c a IH]; rewrite (contains_eq pat (_ ++ _)), contains_eq.
  - destruct pat; [|done]. by destruct b.
  - simpl. intros [H1 H2]%orb_false_elim. rewrite IH by done.
    destruct (starts_with pat (c :: a)) eqn:E; [|done].
    apply (starts_with_app_l _ _ b) in E. simpl in E. congruence.
Qed.

Lemma contains_app_r (pat a b : pystr) :
  contains pat (a ++ b) = false -> contains pat b = false.
Proof.
  induction a as [|c a IH]; [done|].
  rewrite contains_eq. simpl. intros [_ H]%orb_false_elim. by apply IH.
Qed.

Lemma contains_mid (pat a b : pystr) : contains pat (a ++ pat ++ b) = true.
Proof.
  induction a as [|c a IH]; rewrite contains_eq; simpl.
  - by rewrite starts_with_self_app.
  - rewrite IH. apply orb_true_r.
Qed.

(** A character that is not in the pattern can be dropped from either end
    of the text searched. *)
Lemma starts_with_snoc (pat s : pystr) (c : N) :
  c ∉ pat -> starts_with pat (s ++ [c]) = starts_with pat s.
Proof.
  revert s; induction pat as [|p pat IH]; intros s Hc; [by destruct s|].
  apply not_elem_of_cons in Hc as [Hne Hc].
  destruct s as [|x s]; simpl.
  - apply N.eqb_neq in Hne. rewrite N.eqb_sym in Hne. by rewrite Hne.
  - by rewrite IH.
Qed.

Lemma contains_snoc (pat s : pystr) (c : N) :
  pat <> [] -> c ∉ pat -> contains pat (s ++ [c]) = contains pat s.
Proof.
  intros Hpat Hc. induction s as [|x s IH].
  - destruct pat as [|p pat]; [done|]. simpl.
    apply not_elem_of_cons in Hc as [Hne _].
    apply N.eqb_neq in Hne. rewrite N.eqb_sym in Hne. by rewrite Hne.
  - rewrite (contains_eq pat (_ ++ _)), (contains_eq pat (x :: s)).
    change ((x :: s) ++ [c]) with (x :: (s ++ [c])).
    rewrite <- IH. f_equal.
    change (x :: (s ++ [c])) with ((x :: s) ++ [c]).
    by apply starts_with_snoc.
Qed.

Lemma contains_cons_other (pat s : pystr) (h c : N) (t : pystr) :
  pat = h :: t -> c <> h -> contains pat (c :: s) = contains pat s.
Proof.
  intros -> Hne. rewrite contains_eq. simpl.
  apply N.eqb_neq in Hne. rewrite N.eqb_sym in Hne. by rewrite Hne.
Qed.

(** The first character of a marker occurs nowhere else in it, so an
    occurrence cannot begin in the text before a marker and end inside it. *)
Definition head_unique (pat : pystr) : Prop :=
  match pat with
  | [] => False
  | h :: t => h ∉ t
  end.

Lemma no_early_start (pat q x : pystr) :
  head_unique pat -> q <> [] -> starts_with pat q = false ->
  starts_with pat (q ++ pat ++ x) = false.
Proof.
  intros Hu Hq Hs. destruct (starts_with pat (q ++ pat ++ x)) eqn:E; [|done].
  exfalso. apply starts_with_prefix in E as [r Hr].
  symmetry in Hr. apply app_eq_inv in Hr as [[k [Hp Hk]]|[k [Hp Hk]]].
  - destruct k as [|h' k].
    + rewrite app_nil_r in Hp. subst q.
      assert (starts_with pat pat = true) as Hpp
        by (apply starts_with_prefix; done).
      congruence.
    + destruct pat as [|h t]; [done|]. simpl in Hu.
      simpl in Hk. injection Hk as <- _.
      destruct q as [|c q]; [done|]. simpl in Hp. injection Hp as _ ->.
      apply Hu. set_solver.
  - subst q. rewrite starts_with_self_app in Hs. done.
Qed.

Lemma find_first (pat p x : pystr) :
  head_unique pat -> contains pat p = false ->
  find pat (p ++ pat ++ x) = Some (p, x).
Proof.
  intros Hu. induction p as [|c p IH]; intros Hc; rewrite find_eq.
  - simpl. by rewrite starts_with_self_app, drop_self_app.
  - rewrite contains_eq in Hc. apply orb_false_elim in Hc as [Hs Hc].
    rewrite no_early_start by done. simpl. by rewrite IH.
Qed.

Lemma find_before_clean (pat s before after : pystr) :
  pat <> [] ->
  find pat s = Some (before, after) -> contains pat before = false.
Proof.
  intros Hpat.
  revert before after; induction s as [|c s IH]; intros before after;
    rewrite find_eq; destruct (starts_with pat _) eqn:E.
  - intros [= <- <-]. by destruct pat.
  - done.
  - intros [= <- <-]. by destruct pat.
  - destruct (find pat s) as [[b a]|] eqn:F; [|done].
    intros [= <- <-]. rewrite contains_eq. rewrite (IH b a) by done.
    destruct (starts_with pat (c :: b)) eqn:E'; [|done].
    apply find_Some in F. subst s.
    apply (starts_with_app_l _ _ (pat ++ a)) in E'. simpl in *. congruence.
Qed.

(** *** Marker regions *)

Lemma START_head_unique : head_unique START.
Proof. apply (bool_decide_unpack _). by vm_compute. Qed.

Lemma END_head_unique : head_unique END_.
Proof. apply (bool_decide_unpack _). by vm_compute. Qed.

Lemma START_length : length START = 24%nat.
Proof. reflexivity. Qed.

Lemma START_nonempty : START <> [].
Proof. done. Qed.

Lemma END_nonempty : END_ <> [].
Proof. done. Qed.

Lemma START_head : exists t, START = 60%N :: t.
Proof. by eexists. Qed.

Lemma END_head : exists t, END_ = 60%N :: t.
Proof. by eexists. Qed.

#[global] Opaque START END_ py.

Lemma match_here_region (x post : pystr) :
  contains END_ x = false ->
  match_here (START ++ x ++ END_ ++ post) = Some (x, post).
Proof.
  intros Hx. unfold match_here.
  rewrite starts_with_self_app, drop_self_app.
  by apply find_first; [apply END_head_unique|].
Qed.

(** The leftmost match is the region that begins at the first start marker
    and ends at the first end marker after it. *)
Lemma re_search_region (p x post : pystr) :
  contains START p = false -> contains END_ x = false ->
  re_search (p ++ START ++ x ++ END_ ++ post) = Some (p, x, post).
Proof.
  intros Hp Hx. induction p as [|c p IH]; rewrite re_search_eq.
  - simpl. by rewrite match_here_region.
  - rewrite contains_eq in Hp. apply orb_false_elim in Hp as [Hs Hp].
    unfold match_here.
    rewrite no_early_start by (done || apply START_head_unique).
    simpl. by rewrite IH.
Qed.

Lemma re_search_clean (s p x post : pystr) :
  re_search s = Some (p, x, post) ->
  contains START p = false /\ contains END_ x = false.
Proof.
  revert p; induction s as [|c s IH]; intros p; rewrite re_search_eq;
    destruct (match_here _) as [[i q]|] eqn:E.
  - intros [= <- <- <-]. split; [done|].
    unfold match_here in E. destruct (starts_with START []); [|done].
    eapply find_before_clean; [apply END_nonempty|done].
  - done.
  - intros [= <- <- <-]. split; [done|].
    unfold match_here in E. destruct (starts_with START (c :: s)); [|done].
    eapply find_before_clean; [apply END_nonempty|done].
  - destruct (re_search s) as [[[p' i] q]|] eqn:F; [|done].
    intros [= <- <- <-]. destruct (IH p' eq_refl) as [Hp Hx].
    split; [|done]. rewrite contains_eq, Hp.
    destruct (starts_with START (c :: p')) eqn:Hs; [|done].
    exfalso. apply re_search_Some in F. subst s.
    unfold match_here in E.
    change (c :: p' ++ START ++ i ++ END_ ++ q)
      with ((c :: p') ++ START ++ i ++ END_ ++ q) in E.
    rewrite (starts_with_app_l _ _ _ Hs) in E.
    apply find_None_contains in E.
    apply starts_with_app in Hs. rewrite Hs in E.
    rewrite <- app_assoc, drop_self_app in E.
    rewrite !app_assoc in E. rewrite <- (app_assoc _ END_ q) in E.
    by rewrite contains_mid in E.
Qed.

Lemma sub_all_None (tp : list piece) (s : pystr) :
  re_search s = None -> sub_all tp s = s.
Proof.
  intros H. rewrite sub_all_equation_1.
  destruct (inspect (re_search s)) as [[[[p x] q]|] Hr]; [congruence|done].
Qed.

Lemma sub_all_Some (tp : list piece) (s p x post : pystr) :
  re_search s = Some (p, x, post) ->
  sub_all tp s = p ++ expand tp (START ++ x ++ END_) ++ sub_all tp post.
Proof.
  intros H. rewrite sub_all_equation_1.
  destruct (inspect (re_search s)) as [[[[p' x'] q']|] Hr]; [|congruence].
  simpl. rewrite H in Hr. by injection Hr as <- <- <-.
Qed.

(** *** Templates without a backslash *)

Lemma parse_template_literal (t : pystr) :
  backslash ∉ t -> parse_template t = Ok (map Lit t).
Proof.
  induction t as [|c t IH]; intros Hb; [done|].
  apply not_elem_of_cons in Hb as [Hne Hb]. simpl.
  destruct (c =? backslash)%N eqn:E;
    [apply N.eqb_eq in E; congruence|].
  by rewrite IH.
Qed.

Lemma expand_literal (t m : pystr) : expand (map Lit t) m = t.
Proof.
  unfold expand. induction t as [|c t IH]; [done|]. simpl. by rewrite IH.
Qed.

Lemma replacement_no_backslash (body : pystr) :
  backslash ∉ body -> backslash ∉ replacement body.
Proof.
  intros Hb. unfold replacement.
  assert (backslash ∉ START) by (apply (bool_decide_unpack _); by vm_compute).
  assert (backslash ∉ END_) by (apply (bool_decide_unpack _); by vm_compute).
  assert (backslash ∉ nl) by (apply (bool_decide_unpack _); by vm_compute).
  rewrite !elem_of_app. tauto.
Qed.

Lemma re_sub_literal (body s : pystr) :
  backslash ∉ body ->
  re_sub (replacement body) s = Ok (sub_all (map Lit (replacement body)) s).
Proof.
  intros Hb. unfold re_sub.
  by rewrite parse_template_literal by by apply replacement_no_backslash.
Qed.

Lemma nl_not_in_END : 10%N ∉ END_.
Proof. apply (bool_decide_unpack _). by vm_compute. Qed.

Lemma nl_not_in_START : 10%N ∉ START.
Proof. apply (bool_decide_unpack _). by vm_compute. Qed.

(** The body of the new block, between its newlines, holds no end marker
    when the body itself holds none. *)
Lemma inner_no_END (body : pystr) :
  contains END_ body = false -> contains END_ (nl ++ body ++ nl) = false.
Proof.
  intros Hb. unfold nl.
  change ([10%N] ++ body ++ [10%N]) with (10%N :: (body ++ [10%N])).
  destruct END_head as [t Ht].
  rewrite (contains_cons_other _ _ _ _ _ Ht) by done.
  by rewrite contains_snoc by (apply END_nonempty || apply nl_not_in_END).
Qed.

(** *** Rewriting a whole document *)

(** A document seen as the regions [re.sub] replaces, each with the text
    that precedes it, and the text after the last region. *)
Record segment := Segment {
  before : pystr;
  old_inner : pystr;
  new_region : pystr
}.

Definition old_region (g : segment) : pystr := START ++ old_inner g ++ END_.

Fixpoint rebuild (region : segment -> pystr) (segs : list segment)
    (tail : pystr) : pystr :=
  match segs with
  | [] => tail
  | g :: segs' => before g ++ region g ++ rebuild region segs' tail
  end.

(** The text before a region holds no start marker and the text between
    its markers no end marker. *)
Definition clean (g : segment) : Prop :=
  contains START (before g) = false /\ contains END_ (old_inner g) = false.

Lemma sub_all_segments (tp : list piece) (s : pystr) :
  exists segs tail,
    s = rebuild old_region segs tail /\
    sub_all tp s = rebuild new_region segs tail /\
    Forall clean segs /\
    Forall (fun g => new_region g = expand tp (old_region g)) segs /\
    re_search tail = None /\
    (re_search s = None -> segs = []) /\
    (segs = [] -> re_search s = None).
Proof.
  remember (length s) as n eqn:Hn. revert s Hn.
  induction n as [n IH] using lt_wf_ind. intros s ->.
  destruct (re_search s) as [[[p x] post]|] eqn:E.
  - destruct (IH (length post)) with (s := post)
      as (segs & tail & H1 & H2 & H3 & H4 & H5 & _);
      [by eapply re_search_shorter|done|].
    exists (Segment p x (expand tp (START ++ x ++ END_)) :: segs), tail.
    rewrite (sub_all_Some _ _ _ _ _ E).
    pose proof (re_search_Some _ _ _ _ E) as Hs.
    pose proof (re_search_clean _ _ _ _ E) as Hc.
    repeat split; simpl; try done.
    + rewrite Hs, H1. unfold old_region. simpl. by rewrite <- ?app_assoc.
    + by rewrite H2.
    + by constructor.
    + by constructor.
  - exists [], s. rewrite (sub_all_None _ _ E). by repeat split.
Qed.

Lemma sub_all_rebuild (tp : list piece) (segs : list segment) (tail : pystr) :
  Forall clean segs -> re_search tail = None ->
  sub_all tp (rebuild old_region segs tail) =
  rebuild (fun g => expand tp (old_region g)) segs tail.
Proof.
  intros Hc Ht. induction Hc as [|g segs [Hp Hx] _ IH]; simpl.
  - by apply sub_all_None.
  - unfold old_region at 1. rewrite <- !app_assoc.
    rewrite (sub_all_Some tp _ (before g) (old_inner g)
               (rebuild old_region segs tail))
      by by apply re_search_region.
    by rewrite IH.
Qed.

Lemma rstrip_split (s : pystr) :
  exists ws, s = rstrip s ++ ws /\ forallb isspace ws = true.
Proof.
  induction s as [|c s (ws & Hs & Hw)]; [by exists []|].
  simpl. destruct (rstrip s) as [|r rs] eqn:E.
  - destruct (isspace c) eqn:Hc.
    + exists (c :: ws). simpl in *. rewrite Hc, Hw. by rewrite Hs at 1.
    + exists ws. simpl in *. by rewrite Hs at 1.
  - exists ws. split; [|done]. simpl. by rewrite Hs at 1.
Qed.

Lemma rebuild_ext (f g : segment -> pystr) (segs : list segment)
    (tail : pystr) :
  Forall (fun x => f x = g x) segs ->
  rebuild f segs tail = rebuild g segs tail.
Proof. induction 1 as [|x segs Hx _ IH]; simpl; congruence. Qed.

Lemma re_search_rebuild (segs : list segment) (tail : pystr) :
  segs <> [] -> Forall clean segs ->
  exists p x post, re_search (rebuild old_region segs tail) = Some (p, x, post).
Proof.
  intros Hne Hc. destruct Hc as [|g segs [Hp Hx] _]; [done|].
  exists (before g), (old_inner g), (rebuild old_region segs tail).
  simpl. unfold old_region at 1. rewrite <- !app_assoc.
  by apply re_search_region.
Qed.

(** Once every region holds the new block, [re.sub] with a literal template
    changes nothing. *)
Definition renewed (body : pystr) (g : segment) : segment :=
  Segment (before g) (nl ++ body ++ nl) (replacement body).

Lemma rebuild_renewed (body : pystr) (segs : list segment) (tail : pystr) :
  rebuild old_region (map (renewed body) segs) tail =
  rebuild (fun _ => replacement body) segs tail.
Proof.
  induction segs as [|g segs IH]; [done|]. simpl. rewrite IH.
  unfold old_region, replacement. simpl. by rewrite <- !app_assoc.
Qed.

Lemma renewed_clean (body : pystr) (segs : list segment) :
  contains END_ body = false -> Forall clean segs ->
  Forall clean (map (renewed body) segs).
Proof.
  intros Hb Hc. induction Hc as [|g segs [Hp _] _ IH]; constructor; [|done].
  split; [done|]. by apply inner_no_END.
Qed.

Lemma sub_all_fixed (body : pystr) (segs : list segment) (tail : pystr) :
  contains END_ body = false -> Forall clean segs -> re_search tail = None ->
  let once := rebuild (fun _ => replacement body) segs tail in
  sub_all (map Lit (replacement body)) once = once.
Proof.
  intros Hb Hc Ht once. unfold once. rewrite <- rebuild_renewed.
  rewrite sub_all_rebuild by (by apply renewed_clean || done).
  apply rebuild_ext, Forall_map, Forall_forall. intros g _.
  rewrite expand_literal. unfold old_region, replacement. simpl.
  by rewrite <- !app_assoc.
Qed.


(** *** The claims about the patch *)

(** C1, as amended: when [patch] returns, either the text had no marked
    region, and the result is the text without its trailing whitespace
    followed by a blank line, the new block and a newline; or the text is a
    sequence of marked regions with text before, between and after them, and
    the result differs from it inside those regions only. *)
Theorem patch_frame (text body out : pystr) :
  patch text body = Ok out ->
  (re_search text = None /\
   out = rstrip text ++ nl ++ nl ++ replacement body ++ nl /\
   exists ws, text = rstrip text ++ ws /\ forallb isspace ws = true)
  \/
  (exists segs tail,
     segs <> [] /\ Forall clean segs /\ re_search tail = None /\
     text = rebuild old_region segs tail /\
     out = rebuild new_region segs tail).
Proof.
  unfold patch. destruct (re_search text) as [m|] eqn:E.
  - intros H. right. unfold re_sub in H.
    destruct (parse_template (replacement body)) as [tp|e]; [|done].
    simpl in H. injection H as <-.
    destruct (sub_all_segments tp text)
      as (segs & tail & H1 & H2 & H3 & _ & H5 & _ & H7).
    exists segs, tail. repeat split; try done.
    intros ->. rewrite H7 in E; done.
  - intros [= <-]. left. repeat split. apply rstrip_split.
Qed.

Definition two_regions : pystr :=
  py "# Title " ++ START ++ py "old one" ++ END_ ++ py " between " ++
  START ++ py "old two" ++ END_ ++ py " footer".

Lemma patch_frame_witness :
  (re_search two_regions = None /\
   py "# Title " ++ replacement (py "new") ++ py " between " ++
     replacement (py "new") ++ py " footer" =
   rstrip two_regions ++ nl ++ nl ++ replacement (py "new") ++ nl /\
   exists ws, two_regions = rstrip two_regions ++ ws /\
              forallb isspace ws = true)
  \/
  (exists segs tail,
     segs <> [] /\ Forall clean segs /\ re_search tail = None /\
     two_regions = rebuild old_region segs tail /\
     py "# Title " ++ replacement (py "new") ++ py " between " ++
       replacement (py "new") ++ py " footer" =
     rebuild new_region segs tail).
Proof.
  apply (patch_frame two_regions (py "new")). vm_compute. reflexivity.
Defined.

(** C1 fails as stated: a text without markers that ends in a space is not
    kept whole, its trailing space is stripped before the block is added. *)
Lemma patch_strips_trailing_space :
  patch (py "a ") (py "b") =
    Ok (py "a" ++ nl ++ nl ++ replacement (py "b") ++ nl) /\
  starts_with (py "a ")
    (py "a" ++ nl ++ nl ++ replacement (py "b") ++ nl) = false.
Proof. split; vm_compute; reflexivity. Qed.

(** C2, as amended: every marked region of the text is replaced by the new
    block, not the first one only (for a block without a backslash). *)
Theorem patch_replaces_every_region (segs : list segment) (tail body : pystr) :
  segs <> [] -> Forall clean segs -> re_search tail = None ->
  backslash ∉ body ->
  patch (rebuild old_region segs tail) body =
  Ok (rebuild (fun _ => replacement body) segs tail).
Proof.
  intros Hne Hc Ht Hb. unfold patch.
  destruct (re_search_rebuild segs tail Hne Hc) as (p & x & post & ->).
  rewrite re_sub_literal by done. f_equal.
  rewrite sub_all_rebuild by done.
  apply rebuild_ext, Forall_forall. intros g _. apply expand_literal.
Qed.

Definition two_segments : list segment :=
  [Segment (py "# Title ") (py "old one") []; 
   Segment (py " between ") (py "old two") []].

Lemma patch_replaces_every_region_witness :
  patch (rebuild old_region two_segments (py " footer")) (py "new") =
  Ok (rebuild (fun _ => replacement (py "new")) two_segments (py " footer")).
Proof.
  apply patch_replaces_every_region.
  - done.
  - repeat constructor; vm_compute; reflexivity.
  - vm_compute; reflexivity.
  - apply (bool_decide_unpack _). vm_compute. exact I.
Defined.

(** C2 fails as stated: with two marked regions the second one is replaced
    too, and nothing of it is left in the result. *)
Lemma patch_replaces_second_region :
  patch two_regions (py "new") =
    Ok (py "# Title " ++ replacement (py "new") ++ py " between " ++
        replacement (py "new") ++ py " footer") /\
  contains (START ++ py "old two" ++ END_)
    (py "# Title " ++ replacement (py "new") ++ py " between " ++
     replacement (py "new") ++ py " footer") = false.
Proof. split; vm_compute; reflexivity. Qed.

(** C3, as amended: patching twice with the same block gives what patching
    once gives, when the block holds no backslash and no end marker and the
    text either has a marked region or holds no start marker at all. *)
Theorem patch_idempotent (text body : pystr) :
  backslash ∉ body -> contains END_ body = false ->
  (re_search text = None -> contains START text = false) ->
  exists once, patch text body = Ok once /\ patch once body = Ok once.
Proof.
  intros Hb He Hs. unfold patch at 1.
  destruct (re_search text) as [m|] eqn:E.
  - rewrite re_sub_literal by done.
    destruct (sub_all_segments (map Lit (replacement body)) text)
      as (segs & tail & H1 & H2 & H3 & H4 & H5 & H6 & H7).
    assert (segs <> []) as Hne by (intros ->; rewrite H7 in E; done).
    eexists; split; [done|]. rewrite H2.
    rewrite (rebuild_ext new_region (fun _ => replacement body)).
    2:{ eapply Forall_impl; [exact H4|]. intros g ->. apply expand_literal. }
    unfold patch. rewrite <- rebuild_renewed at 1.
    destruct (re_search_rebuild (map (renewed body) segs) tail)
      as (p & x & post & ->);
      [by destruct segs|by apply renewed_clean|].
    rewrite re_sub_literal by done. f_equal. by apply sub_all_fixed.
  - eexists; split; [done|]. specialize (Hs eq_refl).
    destruct (rstrip_split text) as (ws & Hw & _).
    assert (contains START (rstrip text ++ nl ++ nl) = false) as Hp.
    { unfold nl. rewrite !app_assoc.
      rewrite !contains_snoc by (apply START_nonempty || apply nl_not_in_START).
      rewrite Hw in Hs. by apply contains_app_l in Hs. }
    assert (rstrip text ++ nl ++ nl ++ replacement body ++ nl =
            (rstrip text ++ nl ++ nl) ++ START ++ (nl ++ body ++ nl) ++
            END_ ++ nl) as Hd
      by (unfold replacement; by rewrite <- !app_assoc).
    unfold patch. rewrite Hd.
    rewrite re_search_region by (done || by apply inner_no_END).
    rewrite re_sub_literal by done. f_equal.
    erewrite sub_all_Some
      by (apply re_search_region; [done|by apply inner_no_END]).
    rewrite expand_literal, sub_all_None by done.
    unfold replacement. by rewrite <- !app_assoc.
Qed.

Lemma patch_idempotent_witness :
  exists once,
    patch two_regions (py "new") = Ok once /\
    patch once (py "new") = Ok once.
Proof.
  apply patch_idempotent.
  - apply (bool_decide_unpack _). vm_compute. exact I.
  - vm_compute; reflexivity.
  - vm_compute. discriminate.
Defined.

(** C3 fails as stated: a text with a start marker and no end marker gets
    the block appended by the first patch, and the second patch then
    replaces everything from that first start marker on. *)
Lemma patch_twice_differs :
  patch (py "intro " ++ START ++ py " rest") (py "new") =
    Ok (py "intro " ++ START ++ py " rest" ++ nl ++ nl ++
        replacement (py "new") ++ nl) /\
  patch (py "intro " ++ START ++ py " rest" ++ nl ++ nl ++
         replacement (py "new") ++ nl) (py "new") =
    Ok (py "intro " ++ replacement (py "new") ++ nl) /\
  py "intro " ++ replacement (py "new") ++ nl <>
  py "intro " ++ START ++ py " rest" ++ nl ++ nl ++
    replacement (py "new") ++ nl.
Proof. repeat split; vm_compute; (reflexivity || discriminate). Qed.

(** The same happens for a block that holds an end marker. *)
Lemma patch_twice_differs_marker_body :
  patch [] END_ = Ok (nl ++ nl ++ replacement END_ ++ nl) /\
  patch (nl ++ nl ++ replacement END_ ++ nl) END_ =
    Ok (nl ++ nl ++ replacement END_ ++ nl ++ END_ ++ nl).
Proof. split; vm_compute; reflexivity. Qed.

(** A block with a backslash is written as it is when it is appended, and
    through the template escapes of [re.sub] when it replaces a region. *)
Lemma patch_twice_differs_backslash :
  patch [] [92; 92]%N = Ok (nl ++ nl ++ replacement [92; 92]%N ++ nl) /\
  patch (nl ++ nl ++ replacement [92; 92]%N ++ nl) [92; 92]%N =
    Ok (nl ++ nl ++ replacement [92%N] ++ nl) /\
  patch (nl ++ nl ++ replacement [92; 100]%N ++ nl) [92; 100]%N =
    Raise ReError.
Proof. repeat split; vm_compute; reflexivity. Qed.

(** *** Further properties of the patch *)

Lemma starts_with_START_space (c : N) (s : pystr) :
  isspace c = true -> starts_with START (c :: s) = false.
Proof.
  intros Hc. destruct START_head as [t ->]. cbn [starts_with].
  destruct (60 =? c)%N eqn:E; [|done].
  apply N.eqb_eq in E. subst c. vm_compute in Hc. discriminate.
Qed.

Lemma re_search_blank (s : pystr) :
  forallb isspace s = true -> re_search s = None.
Proof.
  induction s as [|c s IH]; intros H; rewrite re_search_eq; unfold match_here.
  - destruct START_head as [t ->]. done.
  - simpl in H. apply andb_prop in H as [Hc Hs].
    rewrite starts_with_START_space by done. by rewrite IH.
Qed.

Lemma rstrip_blank (s : pystr) : forallb isspace s = true -> rstrip s = [].
Proof.
  induction s as [|c s IH]; [done|]. simpl.
  intros [Hc Hs]%andb_prop. by rewrite IH, Hc.
Qed.

(** X1: when there is no README, or it is empty or holds whitespace only,
    the text written is a blank line, the markers around the block, and a
    newline; this holds for every block, a backslash in it is written as it
    is. *)
Theorem blank_document (file : option pystr) (new_block : pystr) :
  (forall text, file = Some text -> forallb isspace text = true) ->
  update_readme file new_block = Ok (nl ++ nl ++ replacement new_block ++ nl).
Proof.
  intros H. unfold update_readme, patch.
  assert (forallb isspace (default [] file) = true) as Hb
    by (destruct file as [text|]; [by apply H|done]).
  by rewrite re_search_blank, rstrip_blank.
Qed.

Lemma blank_document_witness :
  update_readme (Some (py "  " ++ nl)) [92; 100]%N =
  Ok (nl ++ nl ++ replacement [92; 100]%N ++ nl).
Proof.
  apply blank_document. intros text [= <-]. vm_compute. reflexivity.
Defined.

Lemma re_search_finds (a x b : pystr) :
  exists p y post, re_search (a ++ START ++ x ++ END_ ++ b) = Some (p, y, post).
Proof.
  induction a as [|c a (p & y & post & IH)]; rewrite re_search_eq.
  - unfold match_here. simpl. rewrite starts_with_self_app, drop_self_app.
    destruct (find END_ (x ++ END_ ++ b)) as [[y post]|] eqn:E;
      [by eexists _, _, _|].
    apply find_None_contains in E. by rewrite contains_mid in E.
  - destruct (match_here _) as [[y' post']|]; [by eexists _, _, _|].
    simpl. rewrite IH. by eexists _, _, _.
Qed.

(** X2: after a patch with a block that holds no backslash, the text has a
    marked region, whatever it was before; the next run replaces that region
    and does not append a second block. *)
Theorem patch_leaves_region (text body : pystr) :
  backslash ∉ body ->
  exists out p y post,
    patch text body = Ok out /\ re_search out = Some (p, y, post).
Proof.
  intros Hb. unfold patch. destruct (re_search text) as [m|] eqn:E.
  - rewrite re_sub_literal by done.
    destruct (sub_all_segments (map Lit (replacement body)) text)
      as (segs & tail & H1 & H2 & H3 & H4 & H5 & H6 & H7).
    destruct segs as [|g segs]; [rewrite H7 in E; done|].
    apply Forall_cons in H4 as [Hg _].
    rewrite expand_literal in Hg.
    destruct (re_search_finds (before g) (nl ++ body ++ nl)
                (rebuild new_region segs tail)) as (p & y & post & Hs).
    exists (sub_all (map Lit (replacement body)) text), p, y, post.
    split; [done|]. rewrite H2. simpl. rewrite Hg. unfold replacement.
    rewrite <- Hs. by rewrite <- !app_assoc.
  - destruct (re_search_finds (rstrip text ++ nl ++ nl) (nl ++ body ++ nl) nl)
      as (p & y & post & Hs).
    eexists _, p, y, post. split; [done|]. rewrite <- Hs.
    unfold replacement. by rewrite <- !app_assoc.
Qed.

Lemma patch_leaves_region_witness :
  exists out p y post,
    patch (py "intro " ++ START ++ py " rest") (py "new") = Ok out /\
    re_search out = Some (p, y, post).
Proof.
  apply patch_leaves_region. apply (bool_decide_unpack _). vm_compute. exact I.
Defined.

Lemma re_search_new_block (p body post : pystr) :
  contains START p = false -> contains END_ body = false ->
  re_search (p ++ replacement body ++ post) =
  Some (p, nl ++ body ++ nl, post).
Proof.
  intros Hp Hb.
  replace (p ++ replacement body ++ post)
    with (p ++ START ++ (nl ++ body ++ nl) ++ END_ ++ post)
    by (unfold replacement; by rewrite <- !app_assoc).
  apply re_search_region; [done|by apply inner_no_END].
Qed.

(** X3: what a patch writes can be read back: for a block without
    backslash and end marker, and a text that has a marked region or no start
    marker, the first marked region of the result holds the block between two
    newlines. *)
Theorem patch_read_back (text body : pystr) :
  backslash ∉ body -> contains END_ body = false ->
  (re_search text = None -> contains START text = false) ->
  exists out p post,
    patch text body = Ok out /\
    re_search out = Some (p, nl ++ body ++ nl, post).
Proof.
  intros Hb He Hs. unfold patch. destruct (re_search text) as [m|] eqn:E.
  - rewrite re_sub_literal by done.
    destruct (sub_all_segments (map Lit (replacement body)) text)
      as (segs & tail & H1 & H2 & H3 & H4 & H5 & H6 & H7).
    destruct segs as [|g segs]; [rewrite H7 in E; done|].
    apply Forall_cons in H4 as [Hg _]. apply Forall_cons in H3 as [[Hp _] _].
    rewrite expand_literal in Hg.
    eexists _, (before g), (rebuild new_region segs tail).
    split; [done|]. rewrite H2. cbn [rebuild]. rewrite Hg.
    by apply re_search_new_block.
  - specialize (Hs eq_refl).
    destruct (rstrip_split text) as (ws & Hw & _).
    assert (contains START (rstrip text ++ nl ++ nl) = false) as Hp.
    { unfold nl. rewrite !app_assoc.
      rewrite !contains_snoc
        by (apply START_nonempty || apply nl_not_in_START).
      rewrite Hw in Hs. by apply contains_app_l in Hs. }
    eexists _, (rstrip text ++ nl ++ nl), nl. split; [done|].
    replace (rstrip text ++ nl ++ nl ++ replacement body ++ nl)
      with ((rstrip text ++ nl ++ nl) ++ replacement body ++ nl)
      by (by rewrite <- !app_assoc).
    by apply re_search_new_block.
Qed.

Lemma patch_read_back_witness :
  exists out p post,
    patch two_regions (py "new") = Ok out /\
    re_search out = Some (p, nl ++ py "new" ++ nl, post).
Proof.
  apply patch_read_back.
  - apply (bool_decide_unpack _). vm_compute. exact I.
  - vm_compute; reflexivity.
  - vm_compute. discriminate.
Defined.

Lemma parse_template_literal_prefix (pre t : pystr) :
  backslash ∉ pre ->
  parse_template (pre ++ t) = rmap (app (map Lit pre)) (parse_template t).
Proof.
  induction pre as [|c pre IH]; intros Hb.
  - simpl. by destruct (parse_template t).
  - apply not_elem_of_cons in Hb as [Hne Hb].
    change ((c :: pre) ++ t) with (c :: (pre ++ t)).
    cbn [parse_template].
    destruct (c =? backslash)%N eqn:E;
      [apply N.eqb_eq in E; congruence|].
    rewrite IH by done. by destruct (parse_template t).
Qed.

(** X4: a block in which a backslash is followed by an ASCII letter other
    than [a b f g n r t v] cannot replace a marked region: for a text that has
    one, the patch raises and nothing is written. *)
Theorem patch_bad_escape (text pre post : pystr) (c : N) :
  re_search text <> None ->
  backslash ∉ pre ->
  is_ascii_letter c = true -> escape_char c = None -> c <> 103%N ->
  patch text (pre ++ [backslash; c] ++ post) = Raise ReError.
Proof.
  intros Hs Hb Hl He Hg. unfold patch.
  destruct (re_search text); [|done]. unfold re_sub, replacement.
  replace (START ++ nl ++ (pre ++ [backslash; c] ++ post) ++ nl ++ END_)
    with ((START ++ nl ++ pre) ++ backslash :: c :: (post ++ nl ++ END_))
    by (by rewrite <- !app_assoc).
  rewrite parse_template_literal_prefix.
  2:{ assert (backslash ∉ START)
        by (apply (bool_decide_unpack _); by vm_compute).
      assert (backslash ∉ nl) by (apply (bool_decide_unpack _); by vm_compute).
      rewrite !elem_of_app. tauto. }
  cbn [parse_template]. rewrite N.eqb_refl.
  replace (c =? 103)%N with false by (symmetry; by apply N.eqb_neq).
  assert ((c =? 48)%N = false /\ is_digit c = false) as [-> ->].
  { unfold is_ascii_letter, is_digit in *.
    destruct (c =? 48)%N eqn:E0; [apply N.eqb_eq in E0; subst c; done|].
    split; [done|]. apply andb_false_iff.
    destruct (c <=? 57)%N eqn:E1; [|by right]. left.
    apply N.leb_le in E1. apply N.leb_gt.
    apply orb_prop in Hl as [[H1 _]%andb_prop|[H1 _]%andb_prop];
      apply N.leb_le in H1; lia. }
  rewrite He, Hl. done.
Qed.

Lemma patch_bad_escape_witness :
  patch two_regions (py "C" ++ [backslash; 100%N] ++ py " code") =
  Raise ReError.
Proof.
  apply patch_bad_escape; try (vm_compute; done).
  apply (bool_decide_unpack _). vm_compute. exact I.
Defined.



End Readme.

(** ** The API client: [graphql] *)

Module Api.

(** [obj[key]] on the fields of a decoded JSON object. *)
Fixpoint lookup_field (key : pystr) (fields : list (pystr * json))
  : option json :=
  match fields with
  | [] => None
  | (k, v) :: rest =>
    if bool_decide (k = key) then Some v else lookup_field key rest
  end.

(** [key in container] for a string [key]: a key of a dict, an item of a
    list, a substring of a string; anything else is not iterable. *)
Definition py_in (key : pystr) (container : json) : result bool :=
  match container with
  | JObj fields =>
    Ok (match lookup_field key fields with Some _ => true | None => false end)
  | JArr items =>
    Ok (existsb (fun j => match j with
                          | JStr s => bool_decide (s = key)
                          | _ => false
                          end) items)
  | JStr s => Ok (Readme.contains key s)
  | _ => Raise TypeError
  end.

(** [container[key]] for a string [key]. *)
Definition getitem (container : json) (key : pystr) : result json :=
  match container with
  | JObj fields =>
    match lookup_field key fields with
    | Some v => Ok v
    | None => Raise (KeyError key)
    end
  | _ => Raise TypeError
  end.

(** [graphql] (lines 59-63).  [response] is what [urlopen] and [json.load]
    deliver for the request: the decoded payload, or the exception of a failed
    transfer or decoding. *)
Definition graphql (response : result json) : result json :=
  let* payload := response in
  let* has_errors := py_in (py "errors") payload in
  if has_errors then
    let* errors := getitem payload (py "errors") in
    Raise (RuntimeError errors)
  else getitem payload (py "data").

(** The claim's condition: the payload carries a non-empty error list. *)
Definition nonempty_error_list (payload : json) : bool :=
  match payload with
  | JObj fields =>
    match lookup_field (py "errors") fields with
    | Some (JArr (_ :: _)) => true
    | _ => false
    end
  | _ => false
  end.

Definition is_protocol_error (r : result json) : bool :=
  match r with
  | Raise (RuntimeError _) => true
  | _ => false
  end.

(** C4, as amended: [graphql] raises the protocol error exactly when the
    decoded object has an [errors] key, whatever its value, and the error
    carries that value; without the key it returns the [data] field, or
    raises [KeyError] when there is none. *)
Theorem graphql_protocol_error (payload : json) :
  (forall errors,
     graphql (Ok payload) = Raise (RuntimeError errors) <->
     exists fields,
       payload = JObj fields /\
       lookup_field (py "errors") fields = Some errors) /\
  (forall fields,
     payload = JObj fields ->
     lookup_field (py "errors") fields = None ->
     graphql (Ok payload) =
     match lookup_field (py "data") fields with
     | Some data => Ok data
     | None => Raise (KeyError (py "data"))
     end).
Proof.
  split.
  - intros errors. split.
    + unfold graphql. simpl. destruct payload as [| | | |s|items|fields];
        simpl; try done.
      * by destruct (Readme.contains _ s).
      * by destruct (existsb _ items).
      * destruct (lookup_field (py "errors") fields) as [v|] eqn:E; simpl.
        -- intros [= <-]. by exists fields.
        -- by destruct (lookup_field (py "data") fields).
    + intros (fields & -> & H). unfold graphql. simpl. by rewrite H.
  - intros fields -> H. unfold graphql. simpl. by rewrite H.
Qed.

(** C4 fails as stated: an [errors] key with an empty list raises as well. *)
Lemma graphql_raises_on_empty_errors :
  graphql (Ok (JObj [(py "errors", JArr []); (py "data", JObj [])])) =
    Raise (RuntimeError (JArr [])) /\
  nonempty_error_list
    (JObj [(py "errors", JArr []); (py "data", JObj [])]) = false.
Proof. split; reflexivity. Qed.

(** A failed transfer is passed on as it is. *)
Lemma graphql_transport_error (e : exn) : graphql (Raise e) = Raise e.
Proof. reflexivity. Qed.

(** *** Further properties of [graphql] *)

(** X5: [graphql] returns only for a decoded JSON object that has no
    [errors] key and has a [data] key, and then returns the value of [data];
    a decoded payload that is not an object (a list, a string, a number,
    [null]) raises [TypeError], whether or not it holds the word
    [errors]. *)
Theorem graphql_returns_data (payload : json) :
  (forall data,
     graphql (Ok payload) = Ok data <->
     exists fields,
       payload = JObj fields /\
       lookup_field (py "errors") fields = None /\
       lookup_field (py "data") fields = Some data) /\
  ((forall fields, payload <> JObj fields) ->
   graphql (Ok payload) = Raise TypeError).
Proof.
  split.
  - intros data. split.
    + unfold graphql. simpl.
      destruct payload as [| | | |s|items|fields]; simpl; try done.
      * by destruct (Readme.contains _ s).
      * by destruct (existsb _ items).
      * destruct (lookup_field (py "errors") fields) as [v|] eqn:E; simpl;
          [done|].
        destruct (lookup_field (py "data") fields) as [d|] eqn:D; [|done].
        intros [= <-]. by exists fields.
    + intros (fields & -> & He & Hd). unfold graphql. simpl.
      by rewrite He, Hd.
  - intros Hobj. unfold graphql. simpl.
    destruct payload as [| | | |s|items|fields]; simpl; try done.
    + by destruct (Readme.contains _ s).
    + by destruct (existsb _ items).
    + by destruct (Hobj fields).
Qed.

End Api.

(** ** The aggregation loop of [main] *)

Module Aggregate.

(** What [d.get(key)] can find for a decoded JSON object [d]: no such key,
    a JSON [null], or a value. *)
Inductive field (A : Type) :=
| Missing
| Null
| Val (a : A).
Arguments Missing {A}.
Arguments Null {A}.
Arguments Val {A} a.

(** The records of the query's answer, with the types of its schema: an
    edge always has its [size] and its [node]'s [name], read with [[...]]; the
    other fields are read with [.get]. *)
Record edge := Edge {
  node_name : pystr;
  size : Z
}.

Record languages_t := Languages {
  edges : field (list edge)
}.

Record repo := Repo {
  name : field pystr;
  isArchived : field bool;
  languages : field languages_t
}.

(** The script's configuration. *)
Definition EXCLUDE_REPOS : gset pystr := ∅.
Definition EXCLUDE_LANGS : gset pystr := {[ py "Jupyter Notebook" ]}.

(** The [defaultdict(int)] of totals, in insertion order. *)
Definition totals_t := list (pystr * Z).

(** [totals[lang] += n]: a new key starts from [0] and goes last. *)
Fixpoint add_total (totals : totals_t) (lang : pystr) (n : Z) : totals_t :=
  match totals with
  | [] => [(lang, 0 + n)]
  | (k, v) :: rest =>
    if bool_decide (k = lang) then (k, v + n) :: rest
    else (k, v) :: add_total rest lang n
  end.

(** The truth value of [repo.get("name")] and of [repo.get("isArchived")]. *)
Definition name_truthy (n : field pystr) : bool :=
  match n with
  | Val (_ :: _) => true
  | _ => false
  end.

Definition flag_truthy (b : field bool) : bool :=
  match b with
  | Val true => true
  | _ => false
  end.

(** [name in EXCLUDE_REPOS], for what [repo.get("name")] returned: the set
    holds strings only. *)
Definition name_in (n : field pystr) (names : gset pystr) : bool :=
  match n with
  | Val s => bool_decide (s ∈ names)
  | _ => false
  end.

(** [repo.get("languages", {}).get("edges", []) or []]: a missing
    [languages] is the empty dict, a [null] one has no [.get]. *)
Definition repo_edges (r : repo) : result (list edge) :=
  match languages r with
  | Missing => Ok []
  | Null => Raise AttributeError
  | Val l =>
    match edges l with
    | Missing => Ok []
    | Null => Ok []
    | Val es => Ok es
    end
  end.

(** One turn of the inner loop (lines 181-184). *)
Definition count_edge (exclude_langs : gset pystr) (totals : totals_t)
    (e : edge) : totals_t :=
  if bool_decide (node_name e ∈ exclude_langs) then totals
  else add_total totals (node_name e) (size e).

(** One turn of the loop over repositories (lines 174-184). *)
Definition count_repo (exclude_repos exclude_langs : gset pystr)
    (totals : totals_t) (r : repo) : result totals_t :=
  if negb (name_truthy (name r)) || flag_truthy (isArchived r) then Ok totals
  else if name_in (name r) exclude_repos then Ok totals
  else
    let* es := repo_edges r in
    Ok (foldl (count_edge exclude_langs) totals es).

(** The loop over the repositories of all pages, in the order received. *)
Fixpoint count_repos (exclude_repos exclude_langs : gset pystr)
    (totals : totals_t) (repos : list repo) : result totals_t :=
  match repos with
  | [] => Ok totals
  | r :: rest =>
    let* totals' := count_repo exclude_repos exclude_langs totals r in
    count_repos exclude_repos exclude_langs totals' rest
  end.

Definition aggregate (exclude_repos exclude_langs : gset pystr)
    (repos : list repo) : result totals_t :=
  count_repos exclude_repos exclude_langs [] repos.

(** The totals as a mapping from language to bytes. *)
Definition to_map (totals : totals_t) : gmap pystr Z := list_to_map totals.

(** *** What the loop adds *)

Definition add_edge (totals : totals_t) (e : edge) : totals_t :=
  add_total totals (node_name e) (size e).

(** The edges of a repository that reach [totals[lang] += ...]. *)
Definition counted (exclude_repos exclude_langs : gset pystr) (r : repo)
  : result (list edge) :=
  if negb (name_truthy (name r)) || flag_truthy (isArchived r) then Ok []
  else if name_in (name r) exclude_repos then Ok []
  else
    let* es := repo_edges r in
    Ok (List.filter
          (fun e => negb (bool_decide (node_name e ∈ exclude_langs))) es).

Fixpoint all_counted (exclude_repos exclude_langs : gset pystr)
    (repos : list repo) : result (list edge) :=
  match repos with
  | [] => Ok []
  | r :: rest =>
    let* es := counted exclude_repos exclude_langs r in
    let* more := all_counted exclude_repos exclude_langs rest in
    Ok (es ++ more)
  end.

(** The bytes reported for [lang] by a list of edges, and whether any edge
    names it. *)
Fixpoint bytes_of (lang : pystr) (es : list edge) : Z :=
  match es with
  | [] => 0
  | e :: rest =>
    (if bool_decide (node_name e = lang) then size e else 0) + bytes_of lang rest
  end.

Definition mentions (lang : pystr) (es : list edge) : bool :=
  existsb (fun e => bool_decide (node_name e = lang)) es.

Lemma foldl_count_edge (exclude_langs : gset pystr) (es : list edge)
    (totals : totals_t) :
  foldl (count_edge exclude_langs) totals es =
  foldl add_edge totals
    (List.filter
       (fun e => negb (bool_decide (node_name e ∈ exclude_langs))) es).
Proof.
  revert totals; induction es as [|e es IH]; intros totals; [done|].
  simpl. rewrite IH. unfold count_edge.
  by destruct (bool_decide (node_name e ∈ exclude_langs)).
Qed.

Lemma count_repo_counted (xr xl : gset pystr) (totals : totals_t) (r : repo) :
  count_repo xr xl totals r = rmap (foldl add_edge totals) (counted xr xl r).
Proof.
  unfold count_repo, counted.
  destruct (negb _ || _); [done|]. destruct (name_in _ _); [done|].
  destruct (repo_edges r) as [es|e]; [|done]. simpl.
  by rewrite foldl_count_edge.
Qed.

Lemma count_repos_counted (xr xl : gset pystr) (repos : list repo)
    (totals : totals_t) :
  count_repos xr xl totals repos =
  rmap (foldl add_edge totals) (all_counted xr xl repos).
Proof.
  revert totals; induction repos as [|r repos IH]; intros totals; [done|].
  simpl. rewrite count_repo_counted.
  destruct (counted xr xl r) as [es|e]; [|done]. simpl. rewrite IH.
  destruct (all_counted xr xl repos) as [more|e]; [|done]. simpl.
  by rewrite foldl_app.
Qed.

Lemma count_repos_app (xr xl : gset pystr) (a b : list repo)
    (totals : totals_t) :
  count_repos xr xl totals (a ++ b) =
  let* totals' := count_repos xr xl totals a in count_repos xr xl totals' b.
Proof.
  revert totals; induction a as [|r a IH]; intros totals; [done|].
  simpl. destruct (count_repo xr xl totals r); [|done]. simpl. apply IH.
Qed.

(** *** The totals as a mapping *)

Lemma to_map_add_total (totals : totals_t) (lang : pystr) (n : Z) :
  to_map (add_total totals lang n) =
  <[lang := default 0 (to_map totals !! lang) + n]> (to_map totals).
Proof.
  unfold to_map. induction totals as [|[k v] rest IH]; [done|].
  simpl. case_bool_decide as Hk.
  - subst k. simpl. by rewrite lookup_insert_eq, insert_insert_eq.
  - simpl. rewrite IH, lookup_insert_ne by done. by apply insert_insert_ne.
Qed.

Lemma bytes_of_not_mentioned (lang : pystr) (es : list edge) :
  mentions lang es = false -> bytes_of lang es = 0.
Proof.
  induction es as [|e es IH]; [done|]. simpl.
  intros [-> H]%orb_false_elim. rewrite IH by done. lia.
Qed.

Lemma lookup_foldl_add_edge (es : list edge) (totals : totals_t)
    (lang : pystr) :
  to_map (foldl add_edge totals es) !! lang =
  if mentions lang es
  then Some (default 0 (to_map totals !! lang) + bytes_of lang es)
  else to_map totals !! lang.
Proof.
  revert totals; induction es as [|e es IH]; intros totals; [done|].
  simpl. rewrite IH. unfold add_edge at 1 2. rewrite to_map_add_total.
  case_bool_decide as Hk; simpl.
  - subst lang. rewrite lookup_insert_eq. simpl.
    destruct (mentions _ es) eqn:Hm; f_equal; [lia|].
    rewrite bytes_of_not_mentioned by done. lia.
  - by rewrite lookup_insert_ne.
Qed.

Lemma bytes_of_Permutation (lang : pystr) (es es' : list edge) :
  es ≡ₚ es' -> bytes_of lang es = bytes_of lang es'.
Proof. induction 1; simpl; lia. Qed.

Lemma mentions_Permutation (lang : pystr) (es es' : list edge) :
  es ≡ₚ es' -> mentions lang es = mentions lang es'.
Proof.
  unfold mentions. induction 1; simpl; try congruence.
  by rewrite !orb_assoc, (orb_comm (bool_decide _)).
Qed.

Lemma all_counted_Permutation (xr xl : gset pystr) (repos repos' : list repo)
    (es : list edge) :
  repos ≡ₚ repos' -> all_counted xr xl repos = Ok es ->
  exists es', all_counted xr xl repos' = Ok es' /\ es ≡ₚ es'.
Proof.
  intros Hp. revert es. induction Hp as [|r l l' _ IH|r1 r2 l|l l' l'' _ IH1 _ IH2];
    intros es; simpl.
  - intros [= <-]. by exists [].
  - destruct (counted xr xl r) as [e1|]; [|done]. simpl.
    destruct (all_counted xr xl l) as [more|]; [|done]. simpl.
    intros [= <-]. destruct (IH more eq_refl) as (more' & -> & Hm).
    exists (e1 ++ more'). simpl. by rewrite Hm.
  - destruct (counted xr xl r2) as [e2|]; [|done]. simpl.
    destruct (counted xr xl r1) as [e1|]; [|done]. simpl.
    destruct (all_counted xr xl l) as [more|]; [|done]. simpl.
    intros [= <-]. exists (e1 ++ e2 ++ more). split; [done|].
    rewrite !app_assoc. f_equiv. apply Permutation_app_comm.
  - intros H. destruct (IH1 es H) as (es1 & H1 & Hp1).
    destruct (IH2 es1 H1) as (es2 & H2 & Hp2).
    exists es2. split; [done|]. by etrans.
Qed.

(** *** Invariants of the totals *)

Lemma add_total_keys (totals : totals_t) (lang : pystr) (n : Z) :
  map fst (add_total totals lang n) =
  if bool_decide (lang ∈ map fst totals) then map fst totals else map fst totals ++ [lang].
Proof.
  induction totals as [|[k v] rest IH]; [done|]. simpl.
  destruct (decide (k = lang)) as [->|Hne].
  - rewrite bool_decide_eq_true_2 by done.
    rewrite bool_decide_eq_true_2 by left. done.
  - rewrite (bool_decide_eq_false_2 (k = lang)) by done. simpl. rewrite IH.
    destruct (decide (lang ∈ map fst rest)) as [Hin|Hin].
    + rewrite bool_decide_eq_true_2 by done.
      rewrite bool_decide_eq_true_2 by by right. done.
    + rewrite bool_decide_eq_false_2 by done.
      rewrite bool_decide_eq_false_2; [done|].
      intros [?|?]%elem_of_cons; congruence.
Qed.

(** A language has one entry in the totals. *)
Lemma add_total_NoDup (totals : totals_t) (lang : pystr) (n : Z) :
  NoDup (map fst totals) -> NoDup (map fst (add_total totals lang n)).
Proof.
  intros H. rewrite add_total_keys. case_bool_decide as Hk; [done|].
  apply NoDup_app. repeat split; [done| |apply NoDup_singleton].
  intros x Hx ->%list_elem_of_singleton. done.
Qed.

Lemma foldl_add_edge_NoDup (es : list edge) (totals : totals_t) :
  NoDup (map fst totals) -> NoDup (map fst (foldl add_edge totals es)).
Proof.
  revert totals; induction es as [|e es IH]; intros totals H; [done|].
  simpl. by apply IH, add_total_NoDup.
Qed.

Lemma aggregate_NoDup (xr xl : gset pystr) (repos : list repo)
    (totals : totals_t) :
  aggregate xr xl repos = Ok totals -> NoDup (map fst totals).
Proof.
  unfold aggregate. rewrite count_repos_counted.
  destruct (all_counted xr xl repos) as [es|]; [|done].
  intros [= <-]. apply foldl_add_edge_NoDup. constructor.
Qed.

Definition all_positive (totals : totals_t) : Prop :=
  forall lang n, (lang, n) ∈ totals -> 0 < n.

Lemma add_total_positive (totals : totals_t) (lang : pystr) (n : Z) :
  0 < n -> all_positive totals -> all_positive (add_total totals lang n).
Proof.
  intros Hn. induction totals as [|[k v] rest IH]; intros Ht l m; simpl.
  - intros [= -> ->]%list_elem_of_singleton. lia.
  - assert (0 < v) by (apply (Ht k); left).
    assert (all_positive rest) by (intros ? ? ?; eapply Ht; by right).
    destruct (bool_decide (k = lang)).
    + intros [[= -> ->]|Hin]%elem_of_cons; [lia|]. by eapply Ht; right.
    + intros [[= -> ->]|Hin]%elem_of_cons; [lia|]. by eapply IH.
Qed.

Lemma foldl_add_edge_positive (es : list edge) (totals : totals_t) :
  Forall (fun e => 0 < size e) es -> all_positive totals ->
  all_positive (foldl add_edge totals es).
Proof.
  intros Hes. revert totals. induction Hes as [|e es He _ IH];
    intros totals Ht; [done|].
  simpl. by apply IH, add_total_positive.
Qed.

Lemma counted_sizes (xr xl : gset pystr) (r : repo) (all es : list edge) :
  repo_edges r = Ok all -> Forall (fun e => 0 < size e) all ->
  counted xr xl r = Ok es -> Forall (fun e => 0 < size e) es.
Proof.
  unfold counted. intros -> Hall.
  destruct (negb _ || _); [by intros [= <-]|].
  destruct (name_in _ _); [by intros [= <-]|]. simpl.
  intros [= <-]. rewrite Forall_forall in Hall. apply Forall_forall.
  intros e [He _]%list_elem_of_In%filter_In. by apply Hall, list_elem_of_In.
Qed.

(** *** The claims about the aggregation *)

(** C5, as amended: when every language edge received has a strictly
    positive size, every language of the totals has a strictly positive
    size. *)
Theorem totals_positive (exclude_repos exclude_langs : gset pystr)
    (repos : list repo) (totals : totals_t) :
  (forall r es, r ∈ repos -> repo_edges r = Ok es ->
                Forall (fun e => 0 < size e) es) ->
  aggregate exclude_repos exclude_langs repos = Ok totals ->
  all_positive totals.
Proof.
  intros Hsz. unfold aggregate.
  assert (all_positive []) as Hstart
    by (intros ? ? H; by apply elem_of_nil in H).
  revert Hstart. generalize (@nil (pystr * Z)) as start.
  induction repos as [|r repos IH]; intros start Hstart; simpl.
  - by intros [= <-].
  - rewrite count_repo_counted.
    destruct (counted exclude_repos exclude_langs r) as [es|] eqn:E; [|done].
    simpl. apply IH; [intros r' es' Hr'; apply Hsz; by right|].
    apply foldl_add_edge_positive; [|done].
    destruct (repo_edges r) as [all|] eqn:Hall.
    + eapply counted_sizes; [done| |done]. eapply Hsz; [by left|done].
    + unfold counted in E. rewrite Hall in E.
      destruct (negb _ || _); [by injection E as <-|].
      destruct (name_in _ _); [by injection E as <-|]. done.
Qed.

Definition repo_of (n : pystr) (es : list edge) : repo :=
  Repo (Val n) (Val false) (Val (Languages (Val es))).

Definition sample_repos : list repo :=
  [repo_of (py "site") [Edge (py "HTML") 700; Edge (py "CSS") 300];
   repo_of (py "tool") [Edge (py "Python") 900; Edge (py "HTML") 50];
   Repo (Val (py "old")) (Val true)
        (Val (Languages (Val [Edge (py "C") 4000])));
   repo_of (py "notes") [Edge (py "Jupyter Notebook") 12000]].

Lemma totals_positive_witness :
  all_positive [(py "HTML", 750); (py "CSS", 300); (py "Python", 900)].
Proof.
  apply (totals_positive EXCLUDE_REPOS EXCLUDE_LANGS sample_repos).
  - intros r es Hr Hes. unfold sample_repos in Hr.
    repeat (apply elem_of_cons in Hr as [->|Hr];
            [injection Hes as <-; repeat constructor|]).
    by apply elem_of_nil in Hr.
  - vm_compute. reflexivity.
Defined.

(** C5 fails as stated: an edge of size zero leaves its language in the
    totals with a size that is not strictly positive. *)
Lemma totals_zero_size :
  aggregate EXCLUDE_REPOS EXCLUDE_LANGS
    [repo_of (py "empty") [Edge (py "Text") 0]] = Ok [(py "Text", 0)] /\
  (0 <? 0) = false.
Proof. split; vm_compute; reflexivity. Qed.

(** C6: aggregating a permutation of the repositories gives the same
    mapping from language to bytes. *)
Theorem aggregate_permutation (exclude_repos exclude_langs : gset pystr)
    (repos repos' : list repo) (totals : totals_t) :
  repos ≡ₚ repos' ->
  aggregate exclude_repos exclude_langs repos = Ok totals ->
  exists totals',
    aggregate exclude_repos exclude_langs repos' = Ok totals' /\
    to_map totals' = to_map totals.
Proof.
  intros Hp. unfold aggregate. rewrite !count_repos_counted.
  destruct (all_counted exclude_repos exclude_langs repos) as [es|] eqn:E;
    [|done].
  destruct (all_counted_Permutation _ _ _ _ _ Hp E) as (es' & -> & Hes).
  simpl. intros [= <-]. eexists; split; [done|].
  apply map_eq. intros lang. rewrite !lookup_foldl_add_edge.
  by rewrite (mentions_Permutation _ _ _ Hes), (bytes_of_Permutation _ _ _ Hes).
Qed.

Lemma aggregate_permutation_witness :
  exists totals',
    aggregate EXCLUDE_REPOS EXCLUDE_LANGS (rev sample_repos) = Ok totals' /\
    to_map totals' =
    to_map [(py "HTML", 750); (py "CSS", 300); (py "Python", 900)].
Proof.
  apply (aggregate_permutation _ _ sample_repos).
  - apply Permutation_rev.
  - vm_compute. reflexivity.
Defined.

(** The order of the entries does depend on the order of the
    repositories. *)
Lemma aggregate_order_differs :
  aggregate EXCLUDE_REPOS EXCLUDE_LANGS (rev sample_repos) =
  Ok [(py "Python", 900); (py "HTML", 750); (py "CSS", 300)].
Proof. vm_compute. reflexivity. Qed.

(** A repository record without language data: no [languages] key, or a
    [languages] object whose [edges] is missing or [null]. *)
Definition no_language_data (r : repo) : Prop :=
  languages r = Missing \/
  exists l, languages r = Val l /\ (edges l = Missing \/ edges l = Null).

Lemma no_language_data_edges (r : repo) :
  no_language_data r -> repo_edges r = Ok [].
Proof.
  unfold repo_edges. intros [->|(l & -> & [->| ->])]; done.
Qed.

(** C10: a repository without language data leaves the totals as they
    are, and the aggregation of a list of repositories is what it is
    without that repository. *)
Theorem repo_without_language_data (exclude_repos exclude_langs : gset pystr)
    (r : repo) :
  no_language_data r ->
  (forall totals,
     count_repo exclude_repos exclude_langs totals r = Ok totals) /\
  (forall others_before others_after,
     aggregate exclude_repos exclude_langs
       (others_before ++ r :: others_after) =
     aggregate exclude_repos exclude_langs (others_before ++ others_after)).
Proof.
  intros H%no_language_data_edges.
  assert (forall totals,
             count_repo exclude_repos exclude_langs totals r = Ok totals)
    as Hstep.
  { intros totals. unfold count_repo. rewrite H.
    destruct (negb _ || _); [done|]. by destruct (name_in _ _). }
  split; [done|]. intros a b. unfold aggregate.
  rewrite !count_repos_app. simpl.
  destruct (count_repos exclude_repos exclude_langs [] a); [|done].
  simpl. by rewrite Hstep.
Qed.

Lemma repo_without_language_data_witness :
  (forall totals,
     count_repo EXCLUDE_REPOS EXCLUDE_LANGS totals
       (Repo (Val (py "bare")) (Val false) (Val (Languages Null))) =
     Ok totals) /\
  (forall others_before others_after,
     aggregate EXCLUDE_REPOS EXCLUDE_LANGS
       (others_before ++
        Repo (Val (py "bare")) (Val false) (Val (Languages Null)) ::
        others_after) =
     aggregate EXCLUDE_REPOS EXCLUDE_LANGS (others_before ++ others_after)).
Proof.
  apply repo_without_language_data. right. eexists. split; [reflexivity|].
  by right.
Defined.

(** A [languages] that is [null] itself is another matter: [None] has no
    [.get]. *)
Lemma repo_with_null_languages :
  aggregate EXCLUDE_REPOS EXCLUDE_LANGS
    [Repo (Val (py "odd")) (Val false) Null] = Raise AttributeError.
Proof. vm_compute. reflexivity. Qed.

(** *** Further properties of the aggregation *)

Lemma counted_not_excluded (xr xl : gset pystr) (r : repo) (es : list edge) :
  counted xr xl r = Ok es -> Forall (fun e => node_name e ∉ xl) es.
Proof.
  unfold counted. destruct (negb _ || _); [by intros [= <-]|].
  destruct (name_in _ _); [by intros [= <-]|].
  destruct (repo_edges r) as [all|]; [|done]. simpl. intros [= <-].
  apply Forall_forall. intros e [_ He]%list_elem_of_In%filter_In.
  apply negb_true_iff, bool_decide_eq_false in He. done.
Qed.

Lemma all_counted_not_excluded (xr xl : gset pystr) (repos : list repo)
    (es : list edge) :
  all_counted xr xl repos = Ok es -> Forall (fun e => node_name e ∉ xl) es.
Proof.
  revert es; induction repos as [|r repos IH]; intros es; simpl.
  - by intros [= <-].
  - destruct (counted xr xl r) as [e1|] eqn:E1; [|done]. simpl.
    destruct (all_counted xr xl repos) as [more|]; [|done]. simpl.
    intros [= <-]. apply Forall_app. split; [|by apply IH].
    by eapply counted_not_excluded.
Qed.

Lemma mentions_spec (lang : pystr) (es : list edge) :
  mentions lang es = true <-> exists e, e ∈ es /\ node_name e = lang.
Proof.
  unfold mentions. rewrite existsb_exists. split.
  - intros (e & He & Hn). exists e. split; [by apply list_elem_of_In|].
    by apply bool_decide_eq_true in Hn.
  - intros (e & He & Hn). exists e. split; [by apply list_elem_of_In|].
    by apply bool_decide_eq_true.
Qed.

(** X6: the total of a language is the sum of the sizes of the counted
    edges that name it, and a language that no counted edge names has no
    entry. *)
Theorem aggregate_sums (exclude_repos exclude_langs : gset pystr)
    (repos : list repo) (totals : totals_t) :
  aggregate exclude_repos exclude_langs repos = Ok totals ->
  exists es,
    all_counted exclude_repos exclude_langs repos = Ok es /\
    forall lang,
      to_map totals !! lang =
      if mentions lang es then Some (bytes_of lang es) else None.
Proof.
  unfold aggregate. rewrite count_repos_counted.
  destruct (all_counted exclude_repos exclude_langs repos) as [es|]; [|done].
  simpl. intros [= <-]. exists es. split; [done|]. intros lang.
  rewrite lookup_foldl_add_edge. simpl.
  destruct (mentions lang es); [f_equal; lia|done].
Qed.

Lemma aggregate_sums_witness :
  exists es,
    all_counted EXCLUDE_REPOS EXCLUDE_LANGS sample_repos = Ok es /\
    forall lang,
      to_map [(py "HTML", 750); (py "CSS", 300); (py "Python", 900)] !! lang =
      if mentions lang es then Some (bytes_of lang es) else None.
Proof.
  apply (aggregate_sums EXCLUDE_REPOS EXCLUDE_LANGS). vm_compute. reflexivity.
Defined.

(** X7: a language of the exclusion set is never a key of the totals,
    whichever repositories report it. *)
Theorem excluded_language_absent (exclude_repos exclude_langs : gset pystr)
    (repos : list repo) (totals : totals_t) (lang : pystr) :
  aggregate exclude_repos exclude_langs repos = Ok totals ->
  lang ∈ exclude_langs ->
  lang ∉ map fst totals.
Proof.
  unfold aggregate. rewrite count_repos_counted.
  destruct (all_counted exclude_repos exclude_langs repos) as [es|] eqn:E;
    [|done].
  simpl. intros [= <-] Hin Hkey.
  apply all_counted_not_excluded in E.
  assert (to_map (foldl add_edge [] es) !! lang = None) as Hnone.
  { rewrite lookup_foldl_add_edge.
    destruct (mentions lang es) eqn:Hm; [|done].
    apply mentions_spec in Hm as (e & He & <-).
    rewrite Forall_forall in E. by destruct (E e He). }
  unfold to_map in Hnone. apply not_elem_of_list_to_map_2 in Hnone.
  apply Hnone. by rewrite <- list_fmap_alt in Hkey || exact Hkey.
Qed.

Lemma excluded_language_absent_witness :
  py "Jupyter Notebook" ∉
  map fst [(py "HTML", 750); (py "CSS", 300); (py "Python", 900)].
Proof.
  apply (excluded_language_absent EXCLUDE_REPOS EXCLUDE_LANGS sample_repos).
  - vm_compute. reflexivity.
  - apply (bool_decide_unpack _). vm_compute. exact I.
Defined.

(** A repository that the loop skips: no name or an empty one, archived,
    or named in the exclusion set. *)
Definition skipped (exclude_repos : gset pystr) (r : repo) : Prop :=
  name_truthy (name r) = false \/ flag_truthy (isArchived r) = true \/
  name_in (name r) exclude_repos = true.

(** X8: a skipped repository contributes nothing and is never read further:
    whatever its [languages] holds, also [null], the totals stay as they are
    and the aggregation is what it is without that repository. *)
Theorem skipped_repo_contributes_nothing
    (exclude_repos exclude_langs : gset pystr) (r : repo) :
  skipped exclude_repos r ->
  (forall totals,
     count_repo exclude_repos exclude_langs totals r = Ok totals) /\
  (forall others_before others_after,
     aggregate exclude_repos exclude_langs
       (others_before ++ r :: others_after) =
     aggregate exclude_repos exclude_langs (others_before ++ others_after)).
Proof.
  intros Hskip.
  assert (forall totals,
             count_repo exclude_repos exclude_langs totals r = Ok totals)
    as Hstep.
  { intros totals. unfold count_repo.
    destruct Hskip as [->|[->| ->]]; simpl; [done| |].
    - by rewrite orb_true_r.
    - by destruct (negb _ || _). }
  split; [done|]. intros a b. unfold aggregate.
  rewrite !count_repos_app. simpl.
  destruct (count_repos exclude_repos exclude_langs [] a); [|done].
  simpl. by rewrite Hstep.
Qed.

Lemma skipped_repo_contributes_nothing_witness :
  (forall totals,
     count_repo EXCLUDE_REPOS EXCLUDE_LANGS totals
       (Repo (Val (py "old")) (Val true) Null) = Ok totals) /\
  (forall others_before others_after,
     aggregate EXCLUDE_REPOS EXCLUDE_LANGS
       (others_before ++ Repo (Val (py "old")) (Val true) Null ::
        others_after) =
     aggregate EXCLUDE_REPOS EXCLUDE_LANGS (others_before ++ others_after)).
Proof.
  apply skipped_repo_contributes_nothing. right. left. reflexivity.
Defined.

(** The names of a list in the order of their first occurrence, [seen]
    being the names met before. *)
Fixpoint first_seen (seen names : list pystr) : list pystr :=
  match names with
  | [] => []
  | n :: rest =>
    if bool_decide (n ∈ seen) then first_seen seen rest
    else n :: first_seen (seen ++ [n]) rest
  end.

Lemma foldl_add_edge_keys (es : list edge) (totals : totals_t) :
  map fst (foldl add_edge totals es) =
  map fst totals ++ first_seen (map fst totals) (map node_name es).
Proof.
  revert totals; induction es as [|e es IH]; intros totals; simpl.
  - by rewrite app_nil_r.
  - rewrite IH. unfold add_edge at 1 2. rewrite add_total_keys.
    destruct (bool_decide (node_name e ∈ map fst totals)); [done|].
    by rewrite <- app_assoc.
Qed.

(** X9: the languages of the totals are those of the counted edges, each
    once, in the order in which the loop first meets them. *)
Theorem totals_insertion_order (exclude_repos exclude_langs : gset pystr)
    (repos : list repo) (totals : totals_t) :
  aggregate exclude_repos exclude_langs repos = Ok totals ->
  NoDup (map fst totals) /\
  exists es,
    all_counted exclude_repos exclude_langs repos = Ok es /\
    map fst totals = first_seen [] (map node_name es).
Proof.
  intros H. split.
  - revert H. unfold aggregate. rewrite count_repos_counted.
    destruct (all_counted exclude_repos exclude_langs repos) as [es|];
      [|done].
    intros [= <-]. apply foldl_add_edge_NoDup. constructor.
  - revert H. unfold aggregate. rewrite count_repos_counted.
    destruct (all_counted exclude_repos exclude_langs repos) as [es|];
      [|done].
    intros [= <-]. exists es. split; [done|]. by rewrite foldl_add_edge_keys.
Qed.

Lemma totals_insertion_order_witness :
  NoDup (map fst [(py "HTML", 750); (py "CSS", 300); (py "Python", 900)]) /\
  exists es,
    all_counted EXCLUDE_REPOS EXCLUDE_LANGS sample_repos = Ok es /\
    map fst [(py "HTML", 750); (py "CSS", 300); (py "Python", 900)] =
    first_seen [] (map node_name es).
Proof.
  apply (totals_insertion_order EXCLUDE_REPOS EXCLUDE_LANGS sample_repos).
  vm_compute. reflexivity.
Defined.

End Aggregate.

(** ** Rendering: [pct], [pct_str], [bar], [make_table], [make_svg] *)

Module Render.

(** *** Floats *)

Definition float := spec_float.
Definition prec : Z := 53.
Definition emax : Z := 1024.

Definition fzero : float := S754_zero false.

(** An [int] operand of a float operation, converted to the nearest
    float. *)
Definition float_of_int (z : Z) : float := binary_normalize prec emax z 0 false.

(** [x * y] on floats. *)
Definition fmul (x y : float) : float := SFmul prec emax x y.

(** An [int] as an exact binary value. *)
Definition exact (z : Z) : float :=
  match z with
  | Z0 => S754_zero false
  | Zpos m => S754_finite false m 0
  | Zneg m => S754_finite true m 0
  end.

(** [a / b] on two [int]s: the quotient rounded once to the nearest float;
    a quotient too large for a float raises [OverflowError]. *)
Definition int_true_div (a b : Z) : result float :=
  if b =? 0 then Raise ZeroDivisionError
  else match SFdiv prec emax (exact a) (exact b) with
       | S754_infinity _ => Raise OverflowError
       | q => Ok q
       end.

(** The integer nearest to [m * k * 2^e], ties to the even one, for
    [m, k > 0]. *)
Definition round_scaled (m k e : Z) : Z :=
  if 0 <=? e then m * k * 2 ^ e
  else
    let d := 2 ^ (- e) in
    let q := (m * k) / d in
    let r := (m * k) mod d in
    if 2 * r <? d then q
    else if d <? 2 * r then q + 1
    else if Z.even q then q else q + 1.

(** [round(x)] for a float: the nearest [int], ties to even. *)
Definition py_round (x : float) : result Z :=
  match x with
  | S754_zero _ => Ok 0
  | S754_infinity _ => Raise OverflowError
  | S754_nan => Raise ValueError
  | S754_finite s m e => Ok (cond_Zopp s (round_scaled (Zpos m) 1 e))
  end.

(** [max(0.0, x)]: the second argument only when it is greater. *)
Definition max_zero (x : float) : float :=
  if SFltb fzero x then x else fzero.

(** *** Formatting *)

Fixpoint uint_chars (u : Decimal.uint) : pystr :=
  match u with
  | Decimal.Nil => []
  | Decimal.D0 u => 48%N :: uint_chars u
  | Decimal.D1 u => 49%N :: uint_chars u
  | Decimal.D2 u => 50%N :: uint_chars u
  | Decimal.D3 u => 51%N :: uint_chars u
  | Decimal.D4 u => 52%N :: uint_chars u
  | Decimal.D5 u => 53%N :: uint_chars u
  | Decimal.D6 u => 54%N :: uint_chars u
  | Decimal.D7 u => 55%N :: uint_chars u
  | Decimal.D8 u => 56%N :: uint_chars u
  | Decimal.D9 u => 57%N :: uint_chars u
  end.

(** [str(z)], also what [{z}] gives in an f-string. *)
Definition str_of_int (z : Z) : pystr :=
  match z with
  | Z0 => py "0"
  | Zpos m => uint_chars (Pos.to_uint m)
  | Zneg m => py "-" ++ uint_chars (Pos.to_uint m)
  end.

Definition sign_chars (s : bool) : pystr := if s then py "-" else [].

(** The digits of [n / 10^digits] with [digits] decimals. *)
Definition fixed_digits (digits : nat) (n : Z) : pystr :=
  let scale := 10 ^ Z.of_nat digits in
  let frac := str_of_int (n mod scale) in
  str_of_int (n / scale) ++ py "." ++
  replicate (digits - length frac) 48%N ++ frac.

(** [format(x, ".<digits>f")] for [digits > 0]: the decimal expansion of
    the exact value, rounded to [digits] decimals, ties to even. *)
Definition format_fixed (digits : nat) (x : float) : pystr :=
  match x with
  | S754_nan => py "nan"
  | S754_infinity s => sign_chars s ++ py "inf"
  | S754_zero s => sign_chars s ++ fixed_digits digits 0
  | S754_finite s m e =>
    sign_chars s ++
    fixed_digits digits (round_scaled (Zpos m) (10 ^ Z.of_nat digits) e)
  end.

(** Literals that hold double quotes are written with apostrophes. *)
Definition pyq (s : string) : pystr :=
  map (fun c => if (c =? 39)%N then 34%N else c) (py s).
#[global] Opaque pyq.

(** [html.escape(s, quote=True)]. *)
Definition esc (s : pystr) : pystr :=
  flat_map (fun c =>
    if (c =? 38)%N then py "&amp;"
    else if (c =? 60)%N then py "&lt;"
    else if (c =? 62)%N then py "&gt;"
    else if (c =? 34)%N then py "&quot;"
    else if (c =? 39)%N then py "&#x27;"
    else [c]) s.

(** *** The script's functions *)

Definition MAX_ROWS : nat := 10.

Definition pct (size total : Z) : result float :=
  if total =? 0 then Ok fzero else int_true_div size total.

Definition pct_str (p : float) : pystr :=
  format_fixed 1 (fmul p (float_of_int 100)) ++ py "%".

Definition full_block : N := 9608%N.

(** [filled], the number of full cells of [bar]. *)
Definition bar_filled (p : float) (width : Z) : result Z :=
  py_round (fmul p (float_of_int width)).

Definition bar_width (p : float) (width : Z) : result pystr :=
  let* filled := bar_filled p width in
  Ok (repeat_char full_block filled ++ repeat_char 32%N (width - filled)).

Definition bar (p : float) : result pystr := bar_width p 18.

Definition table_header : list pystr :=
  [py "### " ++ [128202%N] ++ py " Language usage";
   [];
   py "| Language | Share | Usage |";
   py "|---|---:|:---|"].

(** The line of one language (lines 83-84). *)
Definition table_row (total_bytes : Z) (item : pystr * Z) : result pystr :=
  let* p := pct (snd item) total_bytes in
  let* b := bar p in
  Ok (py "| " ++ fst item ++ py " | " ++ pct_str p ++ py " | `" ++ b ++
      py "` |").

(** The loop of [make_table], appending to [lines]. *)
Fixpoint table_loop (total_bytes : Z) (items : list (pystr * Z))
    (lines : list pystr) : result (list pystr) :=
  match items with
  | [] => Ok lines
  | item :: rest =>
    let* row := table_row total_bytes item in
    table_loop total_bytes rest (lines ++ [row])
  end.

(** [make_table], with the cap [MAX_ROWS] as a parameter. *)
Definition make_table_cap (cap : nat) (items : list (pystr * Z))
    (total_bytes : Z) : result pystr :=
  let* lines := table_loop total_bytes (take cap items) table_header in
  Ok (join nl lines).

Definition make_table := make_table_cap MAX_ROWS.

(** The layout constants and the colours of [make_svg]. *)
Definition width : Z := 740.
Definition left : Z := 18.
Definition header_h : Z := 46.
Definition row_h : Z := 26.
Definition name_x : Z := left.
Definition pct_x : Z := 210.
Definition bar_x : Z := 240.
Definition bar_w : Z := width - bar_x - 18.

Definition bg (dark : bool) : pystr := py (if dark then "#0d1117" else "#ffffff").
Definition fg (dark : bool) : pystr := py (if dark then "#e6edf3" else "#24292f").
Definition mute (dark : bool) : pystr := py (if dark then "#8b949e" else "#57606a").
Definition bar_bg (dark : bool) : pystr := py (if dark then "#30363d" else "#eaeef2").
Definition bar_fg (dark : bool) : pystr := py (if dark then "#58a6ff" else "#0969da").

Definition title : pystr := py "Languages used across repositories".

Definition font_family : pystr :=
  pyq "font-family='ui-sans-serif, system-ui, -apple-system, Segoe UI, Roboto, Arial'>".

(** The four parts written before the rows (lines 114-123). *)
Definition svg_header (dark : bool) (height : Z) : list pystr :=
  [pyq "<svg xmlns='http://www.w3.org/2000/svg' width='" ++ str_of_int width ++
     pyq "' height='" ++ str_of_int height ++ pyq "' viewBox='0 0 " ++
     str_of_int width ++ py " " ++ str_of_int height ++ pyq "'>";
   pyq "<rect x='0' y='0' width='" ++ str_of_int width ++ pyq "' height='" ++
     str_of_int height ++ pyq "' rx='14' fill='" ++ bg dark ++ pyq "'/>";
   pyq "<text x='" ++ str_of_int left ++ pyq "' y='30' fill='" ++ fg dark ++
     pyq "' font-size='18' " ++ font_family ++ esc title ++ py "</text>";
   pyq "<text x='" ++ str_of_int left ++ pyq "' y='48' fill='" ++ mute dark ++
     pyq "' font-size='12' " ++ font_family ++
     py "GitHub Linguist byte counts</text>"].

(** The four parts of the row of index [i] (lines 127-140). *)
Definition svg_row (dark : bool) (total_bytes : Z) (i : Z)
    (item : pystr * Z) : result (list pystr) :=
  let* p := pct (snd item) total_bytes in
  let y := header_h + i * row_h in
  Ok [pyq "<text x='" ++ str_of_int name_x ++ pyq "' y='" ++
        str_of_int (y + 17) ++ pyq "' fill='" ++ fg dark ++
        pyq "' font-size='14' " ++ font_family ++ esc (fst item) ++
        py "</text>";
      pyq "<text x='" ++ str_of_int pct_x ++ pyq "' y='" ++
        str_of_int (y + 17) ++ pyq "' fill='" ++ mute dark ++
        pyq "' font-size='13' text-anchor='end' " ++ font_family ++
        esc (pct_str p) ++ py "</text>";
      pyq "<rect x='" ++ str_of_int bar_x ++ pyq "' y='" ++
        str_of_int (y + 8) ++ pyq "' width='" ++ str_of_int bar_w ++
        pyq "' height='10' rx='5' fill='" ++ bar_bg dark ++ pyq "'/>";
      pyq "<rect x='" ++ str_of_int bar_x ++ pyq "' y='" ++
        str_of_int (y + 8) ++ pyq "' width='" ++
        format_fixed 2 (max_zero (fmul p (float_of_int bar_w))) ++
        pyq "' height='10' rx='5' fill='" ++ bar_fg dark ++ pyq "'/>"].

(** The loop of [make_svg] over [enumerate(items[:rows])]. *)
Fixpoint svg_loop (dark : bool) (total_bytes : Z) (i : Z)
    (items : list (pystr * Z)) (parts : list pystr) : result (list pystr) :=
  match items with
  | [] => Ok parts
  | item :: rest =>
    let* row := svg_row dark total_bytes i item in
    svg_loop dark total_bytes (i + 1) rest (parts ++ row)
  end.

(** [make_svg], with the cap as a parameter; the result is the text
    written to [out_path]. *)
Definition make_svg_cap (cap : nat) (items : list (pystr * Z))
    (total_bytes : Z) (dark : bool) : result pystr :=
  let rows := Nat.min cap (length items) in
  let height := header_h + Z.of_nat rows * row_h + 18 in
  let* parts :=
    svg_loop dark total_bytes 0 (take rows items) (svg_header dark height) in
  Ok (join nl (parts ++ [py "</svg>"])).

Definition make_svg := make_svg_cap MAX_ROWS.

(** *** The ranking of [main] *)

(** Insertion into a list sorted by decreasing size, before the first
    entry that is not larger. *)
Fixpoint insert_desc (x : pystr * Z) (l : list (pystr * Z))
  : list (pystr * Z) :=
  match l with
  | [] => [x]
  | y :: l' => if snd x <? snd y then y :: insert_desc x l' else x :: l
  end.

(** [sorted(totals.items(), key=lambda kv: kv[1], reverse=True)]: by
    decreasing size, entries of equal size in their order in [totals]. *)
Definition ranking (totals : list (pystr * Z)) : list (pystr * Z) :=
  foldr insert_desc [] totals.

(** [sum(size for _, size in items)]. *)
Definition sum_sizes (items : list (pystr * Z)) : Z :=
  foldr (fun kv acc => snd kv + acc) 0 items.

(** What [main] writes once the totals are known (lines 190-198): the two
    images and the README. *)
Definition write_outputs (readme : option pystr) (totals : list (pystr * Z))
  : result (pystr * pystr * pystr) :=
  let items := ranking totals in
  let total_bytes := sum_sizes items in
  let* light := make_svg items total_bytes false in
  let* dark := make_svg items total_bytes true in
  let* table := make_table items total_bytes in
  let* text := Readme.update_readme readme table in
  Ok (light, dark, text).


(** *** The loops as maps *)


Lemma table_loop_mapM (total_bytes : Z) (items : list (pystr * Z))
    (lines : list pystr) :
  table_loop total_bytes items lines =
  rmap (app lines) (mapM (table_row total_bytes) items).
Proof.
  revert lines; induction items as [|item items IH]; intros lines; simpl.
  - by rewrite app_nil_r.
  - destruct (table_row total_bytes item) as [row|]; [|done]. simpl.
    rewrite IH. destruct (mapM _ items); [|done]. simpl.
    by rewrite <- app_assoc.
Qed.




(** *** The ranking is a sorted permutation *)


Lemma insert_desc_Permutation (x : pystr * Z) (l : list (pystr * Z)) :
  insert_desc x l ≡ₚ x :: l.
Proof.
  induction l as [|y l IH]; [done|]. simpl.
  destruct (snd x <? snd y); [|done].
  rewrite IH. apply Permutation_swap.
Qed.

Lemma ranking_Permutation (totals : list (pystr * Z)) :
  ranking totals ≡ₚ totals.
Proof.
  induction totals as [|x l IH]; [done|]. simpl.
  by rewrite insert_desc_Permutation, IH.
Qed.



Lemma sum_sizes_Permutation (l l' : list (pystr * Z)) :
  l ≡ₚ l' -> sum_sizes l = sum_sizes l'.
Proof. induction 1; simpl in *; lia. Qed.


(** *** Shares of non-negative sizes are finite floats *)

Lemma fexp_eq (e : Z) : fexp prec emax e = Z.max (e - 53) (-1074).
Proof. reflexivity. Qed.

Lemma digits2_pos_bounds (p : positive) :
  2 ^ (Zpos (digits2_pos p) - 1) <= Zpos p < 2 ^ Zpos (digits2_pos p).
Proof.
  induction p as [p IH|p IH|]; cbn [digits2_pos].
  - rewrite !Pos2Z.inj_succ, (Pos2Z.inj_xI p).
    replace (Z.succ (Zpos (digits2_pos p)) - 1)
      with (Z.succ (Zpos (digits2_pos p) - 1)) by lia.
    rewrite !Z.pow_succ_r by lia. lia.
  - rewrite !Pos2Z.inj_succ, (Pos2Z.inj_xO p).
    replace (Z.succ (Zpos (digits2_pos p)) - 1)
      with (Z.succ (Zpos (digits2_pos p) - 1)) by lia.
    rewrite !Z.pow_succ_r by lia. lia.
  - simpl. lia.
Qed.

Lemma Zdigits2_nonneg (m : Z) : 0 <= Zdigits2 m.
Proof. destruct m; simpl; lia. Qed.

Lemma Zdigits2_lt_pow (m : Z) : 0 <= m -> m < 2 ^ Zdigits2 m.
Proof.
  destruct m as [|p|p]; intros H; [simpl; lia| |lia].
  apply digits2_pos_bounds.
Qed.

Lemma Zdigits2_le (m k : Z) : 0 <= k -> 0 <= m < 2 ^ k -> Zdigits2 m <= k.
Proof.
  intros Hk [H0 Hm]. destruct m as [|p|p]; [simpl; lia| |lia].
  pose proof (digits2_pos_bounds p) as [Hlow _]. simpl.
  assert (2 ^ (Zpos (digits2_pos p) - 1) < 2 ^ k) as Hlt by lia.
  apply Z.pow_lt_mono_r_iff in Hlt; lia.
Qed.

Lemma shr_1_m (mrs : shr_record) :
  0 <= shr_m mrs -> shr_m (shr_1 mrs) = shr_m mrs / 2.
Proof.
  destruct mrs as [m r s]. destruct m as [|[p|p|]|p]; simpl; intros H;
    try reflexivity; try lia.
  - rewrite (Pos2Z.inj_xI p). apply (Z.div_unique _ _ _ 1); lia.
  - rewrite (Pos2Z.inj_xO p). apply (Z.div_unique _ _ _ 0); lia.
Qed.

Lemma iter_shr_1_m (n : positive) (mrs : shr_record) :
  0 <= shr_m mrs ->
  shr_m (SpecFloat.iter_pos shr_1 n mrs) = shr_m mrs / 2 ^ Zpos n.
Proof.
  revert mrs; induction n as [n IH|n IH|]; intros mrs H; cbn [SpecFloat.iter_pos].
  - assert (0 <= shr_m (shr_1 mrs))
      by (rewrite shr_1_m by done; apply Z.div_pos; lia).
    assert (0 <= shr_m (SpecFloat.iter_pos shr_1 n (shr_1 mrs)))
      by (rewrite IH by done; apply Z.div_pos; lia).
    rewrite !IH, shr_1_m by done.
    rewrite !Z.div_div by lia. f_equal.
    rewrite (Pos2Z.inj_xI n).
    replace (2 * Zpos n + 1) with (Zpos n + Zpos n + 1) by lia.
    rewrite !Z.pow_add_r by lia. change (2 ^ 1) with 2. lia.
  - assert (0 <= shr_m (SpecFloat.iter_pos shr_1 n mrs))
      by (rewrite IH by done; apply Z.div_pos; lia).
    rewrite !IH by done. rewrite Z.div_div by lia. f_equal.
    rewrite (Pos2Z.inj_xO n).
    replace (2 * Zpos n) with (Zpos n + Zpos n) by lia.
    rewrite !Z.pow_add_r by lia. lia.
  - rewrite shr_1_m by done. done.
Qed.

Lemma shr_record_of_loc_m (m : Z) (l : location) :
  shr_m (shr_record_of_loc m l) = m.
Proof. by destruct l as [|[]]. Qed.

(** After the shift to the format's exponent the mantissa has at most 53
    bits. *)
Lemma shr_fexp_bounds (m e : Z) (l : location) :
  0 <= m ->
  0 <= shr_m (fst (shr_fexp prec emax m e l)) < 2 ^ 53 /\
  snd (shr_fexp prec emax m e l) = Z.max e (fexp prec emax (Zdigits2 m + e)).
Proof.
  intros Hm. unfold shr_fexp, shr. rewrite fexp_eq.
  pose proof (Zdigits2_lt_pow m Hm) as Hd.
  pose proof (Zdigits2_nonneg m) as Hd0.
  destruct (Z.max (Zdigits2 m + e - 53) (-1074) - e) as [|n|n] eqn:En;
    cbn [fst snd].
  - rewrite shr_record_of_loc_m. split; [|lia]. split; [done|].
    eapply Z.lt_le_trans; [exact Hd|]. apply Z.pow_le_mono_r; lia.
  - rewrite iter_shr_1_m by (rewrite shr_record_of_loc_m; done).
    rewrite shr_record_of_loc_m. split; [|lia]. split.
    + apply Z.div_pos; lia.
    + apply Z.div_lt_upper_bound; [lia|].
      rewrite <- Z.pow_add_r by lia.
      eapply Z.lt_le_trans; [exact Hd|]. apply Z.pow_le_mono_r; lia.
  - rewrite shr_record_of_loc_m. split; [|lia]. split; [done|].
    eapply Z.lt_le_trans; [exact Hd|]. apply Z.pow_le_mono_r; lia.
Qed.

Lemma round_nearest_even_bounds (m : Z) (l : location) :
  m <= round_nearest_even m l <= m + 1.
Proof.
  destruct l as [|[]]; simpl; try lia. destruct (Z.even m); lia.
Qed.

(** A float that is zero, or finite with an exponent of at most [k]. *)
Definition small (k : Z) (x : float) : Prop :=
  match x with
  | S754_zero _ => True
  | S754_finite _ m e => Zpos m < 2 ^ 53 /\ e <= k
  | _ => False
  end.


Lemma small_weaken (k k' : Z) (x : float) :
  k <= k' -> small k x -> small k' x.
Proof. intros Hk. destruct x; simpl; try done. intros [? ?]. split; lia. Qed.















(** *** The claims about the rendering *)

(** A line of the table, from its three cells. *)
Definition table_line (lang share cells : pystr) : pystr :=
  py "| " ++ lang ++ py " | " ++ share ++ py " | `" ++ cells ++ py "` |".

(** A bar of 18 cells of which the first [filled] are full. *)
Definition bar_cells (filled : Z) : pystr :=
  repeat_char full_block filled ++ repeat_char 32%N (18 - filled).

Lemma mapM_total {A B} (f : A -> result B) (g : A -> B) (l : list A) :
  (forall a, f a = Ok (g a)) -> mapM f l = Ok (map g l).
Proof.
  intros H. induction l as [|a l IH]; [done|]. simpl. by rewrite H, IH.
Qed.

Lemma pct_zero_total (size : Z) : pct size 0 = Ok fzero.
Proof. reflexivity. Qed.

Lemma pct_str_zero : pct_str fzero = py "0.0%".
Proof. vm_compute. reflexivity. Qed.

Lemma bar_zero : bar fzero = Ok (bar_cells 0).
Proof. vm_compute. reflexivity. Qed.

Lemma table_row_zero_total (item : pystr * Z) :
  table_row 0 item = Ok (table_line (fst item) (py "0.0%") (bar_cells 0)).
Proof.
  unfold table_row. rewrite pct_zero_total. cbv beta iota delta [bind].
  rewrite bar_zero. cbv beta iota. by rewrite pct_str_zero.
Qed.

Lemma svg_row_zero_total (dark : bool) (i : Z) (item : pystr * Z) :
  exists row, svg_row dark 0 i item = Ok row.
Proof.
  unfold svg_row. rewrite pct_zero_total. cbv beta iota delta [bind].
  by eexists.
Qed.

Lemma svg_loop_zero_total (dark : bool) (items : list (pystr * Z)) (i : Z)
    (parts : list pystr) :
  exists out, svg_loop dark 0 i items parts = Ok out.
Proof.
  revert i parts; induction items as [|item items IH]; intros i parts;
    cbn [svg_loop].
  - by eexists.
  - destruct (svg_row_zero_total dark i item) as [row ->].
    cbv beta iota delta [bind]. apply IH.
Qed.

(** C7: with a grand total of zero no division takes place: every share is
    [0.0], shown as [0.0%] with an empty bar, [make_table] returns the header
    followed by such a line for each of the first [MAX_ROWS] languages, and
    [make_svg] returns as well. *)
Theorem zero_total_renders (items : list (pystr * Z)) :
  (forall size, pct size 0 = Ok fzero) /\
  pct_str fzero = py "0.0%" /\
  bar fzero = Ok (repeat_char 32%N 18) /\
  make_table items 0 =
    Ok (join nl
          (table_header ++
           map (fun item =>
                  table_line (fst item) (py "0.0%") (repeat_char 32%N 18))
               (take MAX_ROWS items))) /\
  (forall dark, exists out, make_svg items 0 dark = Ok out).
Proof.
  split; [exact pct_zero_total|]. split; [exact pct_str_zero|].
  split; [exact bar_zero|]. split.
  - unfold make_table, make_table_cap. rewrite table_loop_mapM.
    rewrite (mapM_total _ _ _ table_row_zero_total). done.
  - intros dark. unfold make_svg, make_svg_cap.
    destruct (svg_loop_zero_total dark
                (take (Nat.min MAX_ROWS (length items)) items) 0
                (svg_header dark
                   (header_h +
                    Z.of_nat (Nat.min MAX_ROWS (length items)) * row_h + 18)))
      as [parts ->].
    cbv beta iota delta [bind]. by eexists.
Qed.

Definition abc_totals : list (pystr * Z) :=
  [(py "A", 60); (py "B", 30); (py "C", 10)].

(** C8: for the totals [{A: 60, B: 30, C: 10}] and a cap of at least 3,
    the table has the lines of A, B and C in this order, with the shares
    [60.0%], [30.0%] and [10.0%] and bars of 11, 5 and 2 full cells out of
    18. *)
Theorem abc_table (cap : nat) :
  (3 <= cap)%nat ->
  make_table_cap cap (ranking abc_totals) (sum_sizes (ranking abc_totals)) =
  Ok (join nl
        (table_header ++
         [table_line (py "A") (py "60.0%") (bar_cells 11);
          table_line (py "B") (py "30.0%") (bar_cells 5);
          table_line (py "C") (py "10.0%") (bar_cells 2)])).
Proof.
  intros Hcap. unfold make_table_cap.
  rewrite take_ge by (vm_compute; lia).
  vm_compute. reflexivity.
Qed.

Lemma abc_table_witness :
  make_table (ranking abc_totals) (sum_sizes (ranking abc_totals)) =
  Ok (join nl
        (table_header ++
         [table_line (py "A") (py "60.0%") (bar_cells 11);
          table_line (py "B") (py "30.0%") (bar_cells 5);
          table_line (py "C") (py "10.0%") (bar_cells 2)])).
Proof. apply (abc_table MAX_ROWS). vm_compute. lia. Defined.

(** The counts of full cells themselves. *)
Lemma abc_bar_filled :
  (let* p := pct 60 100 in bar_filled p 18) = Ok 11 /\
  (let* p := pct 30 100 in bar_filled p 18) = Ok 5 /\
  (let* p := pct 10 100 in bar_filled p 18) = Ok 2.
Proof. repeat split; vm_compute; reflexivity. Qed.


Definition eleven_totals : list (pystr * Z) :=
  [(py "Python", 5000); (py "C", 4000); (py "Rust", 3000); (py "Go", 2500);
   (py "HTML", 2000); (py "CSS", 1500); (py "Shell", 1200); (py "Lua", 900);
   (py "TeX", 700); (py "Makefile", 500); (py "Awk", 20)].


(** The eleventh language is not shown, and its bytes are in the
    denominator: C has 4000 bytes out of 21320, not out of 21300. *)
Lemma truncated_outputs_example :
  exists out,
    make_table (ranking eleven_totals) (sum_sizes (ranking eleven_totals)) =
      Ok out /\
    Readme.contains (table_line (py "C") (py "18.8%") (bar_cells 3)) out = true /\
    Readme.contains (py "Awk") out = false.
Proof.
  exists (match make_table (ranking eleven_totals)
                 (sum_sizes (ranking eleven_totals)) with
          | Ok out => out
          | Raise _ => []
          end).
  repeat split; vm_compute; reflexivity.
Qed.

(** *** Further properties of the rendering *)

(** The characters that [html.escape] replaces. *)
Definition is_markup (c : N) : bool :=
  ((c =? 38) || (c =? 60) || (c =? 62) || (c =? 34) || (c =? 39))%N.

Definition is_bracket_or_quote (c : N) : bool :=
  ((c =? 60) || (c =? 62) || (c =? 34) || (c =? 39))%N.

Lemma esc_cons (c : N) (s : pystr) : esc (c :: s) = esc [c] ++ esc s.
Proof. unfold esc. simpl. by rewrite app_nil_r. Qed.

Lemma esc_one_clean (c : N) :
  forallb (fun x => negb (is_bracket_or_quote x)) (esc [c]) = true.
Proof.
  unfold esc. cbn [flat_map]. rewrite app_nil_r.
  destruct (c =? 38)%N eqn:E1; [by vm_compute|].
  destruct (c =? 60)%N eqn:E2; [by vm_compute|].
  destruct (c =? 62)%N eqn:E3; [by vm_compute|].
  destruct (c =? 34)%N eqn:E4; [by vm_compute|].
  destruct (c =? 39)%N eqn:E5; [by vm_compute|].
  cbn [forallb]. unfold is_bracket_or_quote. by rewrite E2, E3, E4, E5.
Qed.

(** X10: escaped text holds no angle bracket, no double quote and no
    apostrophe, whatever the text was, and a text without ampersand, angle
    bracket, double quote and apostrophe is escaped to itself. *)
Theorem esc_no_markup (s : pystr) :
  forallb (fun c => negb (is_bracket_or_quote c)) (esc s) = true /\
  (forallb (fun c => negb (is_markup c)) s = true -> esc s = s).
Proof.
  split.
  - induction s as [|c s IH]; [done|].
    by rewrite esc_cons, forallb_app, IH, esc_one_clean.
  - induction s as [|c s IH]; [done|]. cbn [forallb].
    intros [Hc Hs]%andb_prop. rewrite esc_cons, IH by done.
    unfold esc. cbn [flat_map]. rewrite app_nil_r.
    unfold is_markup in Hc. apply negb_true_iff in Hc.
    repeat (apply orb_false_elim in Hc as [Hc ?]).
    by repeat match goal with H : (_ =? _)%N = false |- _ =>
                rewrite H; clear H end.
Qed.

Lemma insert_desc_filter (x : pystr * Z) (l : list (pystr * Z)) (v : Z) :
  List.filter (fun kv => snd kv =? v) (insert_desc x l) =
  List.filter (fun kv => snd kv =? v) (x :: l).
Proof.
  induction l as [|y l IH]; [done|]. cbn [insert_desc].
  destruct (snd x <? snd y) eqn:E; [|done].
  apply Z.ltb_lt in E. cbn [List.filter] in *. rewrite IH.
  destruct (snd x =? v) eqn:Ex; [|done].
  apply Z.eqb_eq in Ex.
  replace (snd y =? v) with false by (symmetry; apply Z.eqb_neq; lia).
  done.
Qed.

(** X11: the ranking is stable: languages of equal size come in the order
    they have in the totals. *)
Theorem ranking_stable (totals : list (pystr * Z)) (v : Z) :
  List.filter (fun kv => snd kv =? v) (ranking totals) =
  List.filter (fun kv => snd kv =? v) totals.
Proof.
  induction totals as [|x l IH]; [done|].
  cbn [ranking foldr]. fold (ranking l). rewrite insert_desc_filter.
  cbn [List.filter]. by rewrite IH.
Qed.

(** *** Shares are at most one *)

(** A float that is [+0.0], or positive and finite with an exponent of at
    most [E] and a value of at most [N / D] plus one unit of its last
    place. *)
Definition at_most (N D E : Z) (x : float) : Prop :=
  match x with
  | S754_zero s => s = false
  | S754_finite s m e =>
    s = false /\ e <= E /\ D * Zpos m <= N * 2 ^ (- e) + D
  | _ => False
  end.

Lemma shr_fexp_m (m e : Z) (l : location) :
  0 <= m ->
  e <= snd (shr_fexp prec emax m e l) /\
  shr_m (fst (shr_fexp prec emax m e l)) =
  m / 2 ^ (snd (shr_fexp prec emax m e l) - e).
Proof.
  intros Hm. unfold shr_fexp, shr.
  destruct (fexp prec emax (Zdigits2 m + e) - e) as [|n|n] eqn:En;
    cbn [fst snd].
  - rewrite shr_record_of_loc_m, Z.sub_diag. simpl.
    rewrite Z.div_1_r. lia.
  - rewrite iter_shr_1_m by (rewrite shr_record_of_loc_m; done).
    rewrite shr_record_of_loc_m. split; [lia|]. do 2 f_equal. lia.
  - rewrite shr_record_of_loc_m, Z.sub_diag. simpl.
    rewrite Z.div_1_r. lia.
Qed.

Lemma pow2_split (a b : Z) : 0 <= a -> 0 <= b -> 2 ^ (a + b) = 2 ^ a * 2 ^ b.
Proof. intros. by apply Z.pow_add_r. Qed.

Lemma pow2_pos (a : Z) : 0 <= a -> 0 < 2 ^ a.
Proof. intros. apply Z.pow_pos_nonneg; lia. Qed.

(** Rounding keeps an upper bound of the value, up to one unit of the last
    place. *)
Lemma round_at_most (mx ex : Z) (lx : location) (N D L E : Z) :
  0 <= mx -> 0 < D -> 0 <= N ->
  D * mx <= N * 2 ^ (- ex) ->
  N < D * 2 ^ L -> 0 <= L ->
  ex <= E -> L - 52 <= E -> -1074 <= E -> E <= 0 ->
  at_most N D E (binary_round_aux prec emax false mx ex lx).
Proof.
  intros Hm HD HN Hval HL HL0 Hex HLE HE0 HE. unfold binary_round_aux.
  pose proof (shr_fexp_bounds mx ex lx Hm) as [[H1 H2] H3].
  pose proof (shr_fexp_m mx ex lx Hm) as [H4 H5].
  destruct (shr_fexp prec emax mx ex lx) as [mrs' e'].
  cbn [fst snd] in *. rewrite fexp_eq in H3.
  (* the first shift *)
  assert (mx < 2 ^ (L - ex)) as Hmx.
  { pose proof (pow2_pos (- ex) ltac:(lia)).
    replace (L - ex) with (L + - ex) by lia. rewrite pow2_split by lia. nia. }
  assert (Zdigits2 mx <= L - ex) as Hdx by (apply Zdigits2_le; lia).
  assert (e' <= E) as He' by lia.
  set (m' := shr_m mrs') in *.
  assert (D * m' <= N * 2 ^ (- e')) as Hm'.
  { pose proof (pow2_pos (e' - ex) ltac:(lia)) as Hp.
    pose proof (Z.mul_div_le mx (2 ^ (e' - ex)) Hp) as Hdiv.
    rewrite <- H5 in Hdiv.
    replace (- ex) with (- e' + (e' - ex)) in Hval by lia.
    rewrite pow2_split in Hval by lia.
    pose proof (pow2_pos (- e') ltac:(lia)). nia. }
  (* the rounding *)
  pose proof (round_nearest_even_bounds m' (loc_of_shr_record mrs')) as Hr.
  set (m2 := round_nearest_even m' (loc_of_shr_record mrs')) in *.
  assert (0 <= m2) as Hm2 by lia.
  pose proof (shr_fexp_bounds m2 e' loc_Exact Hm2) as [[H6 H7] H8].
  pose proof (shr_fexp_m m2 e' loc_Exact Hm2) as [H9 H10].
  destruct (shr_fexp prec emax m2 e' loc_Exact) as [mrs'' e''].
  cbn [fst snd] in *. rewrite fexp_eq in H8.
  assert (m2 < 2 ^ (L - e' + 1)) as Hm2'.
  { pose proof (pow2_pos (- e') ltac:(lia)).
    replace (L - e' + 1) with (L + - e' + 1) by lia.
    rewrite !pow2_split by lia. change (2 ^ 1) with 2.
    pose proof (pow2_pos L HL0). nia. }
  assert (Zdigits2 m2 <= L - e' + 1) as Hd2 by (apply Zdigits2_le; lia).
  assert (e'' <= E) as He'' by lia.
  set (m3 := shr_m mrs'') in *.
  assert (D * m3 <= N * 2 ^ (- e'') + D) as Hm3.
  { pose proof (pow2_pos (e'' - e') ltac:(lia)) as Hp.
    pose proof (Z.mul_div_le m2 (2 ^ (e'' - e')) Hp) as Hdiv.
    rewrite <- H10 in Hdiv.
    assert (2 ^ (- e') = 2 ^ (- e'') * 2 ^ (e'' - e')) as Hsplit
      by (rewrite <- pow2_split by lia; f_equal; lia).
    pose proof (pow2_pos (- e'') ltac:(lia)). nia. }
  destruct m3 as [|m|m] eqn:Em; simpl; [done| |lia].
  replace (e'' <=? emax - prec) with true
    by (symmetry; apply Z.leb_le; unfold emax, prec; lia).
  simpl. done.
Qed.

Lemma digits2_pos_mono (ma mb : positive) :
  Zpos ma <= Zpos mb -> Zpos (digits2_pos ma) <= Zpos (digits2_pos mb).
Proof.
  intros H. pose proof (digits2_pos_bounds ma) as [Ha _].
  pose proof (digits2_pos_bounds mb) as [_ Hb].
  assert (2 ^ (Zpos (digits2_pos ma) - 1) < 2 ^ Zpos (digits2_pos mb)) as Hlt
    by lia.
  apply Z.pow_lt_mono_r_iff in Hlt; lia.
Qed.

(** The quotient that [SFdiv] rounds, for [0 < a <= b], is at most one. *)
Lemma div_core_value (ma mb : positive) :
  Zpos ma <= Zpos mb ->
  0 <= fst (fst (SFdiv_core_binary prec emax (Zpos ma) 0 (Zpos mb) 0)) /\
  snd (fst (SFdiv_core_binary prec emax (Zpos ma) 0 (Zpos mb) 0)) <= -53 /\
  fst (fst (SFdiv_core_binary prec emax (Zpos ma) 0 (Zpos mb) 0)) <=
    2 ^ (- snd (fst (SFdiv_core_binary prec emax (Zpos ma) 0 (Zpos mb) 0))).
Proof.
  intros Hab. unfold SFdiv_core_binary.
  pose proof (digits2_pos_mono ma mb Hab) as Hd.
  set (e' := Z.min _ _).
  assert (e' <= -53) as He.
  { unfold e'. rewrite fexp_eq. cbn [Zdigits2]. lia. }
  set (s := 0 - 0 - e'). assert (s = - e') as Hs by (unfold s; lia).
  set (m' := match s with Z0 => Zpos ma | Zpos _ => Z.shiftl (Zpos ma) s
                        | Zneg _ => 0 end).
  assert (0 <= m' <= Zpos mb * 2 ^ s) as Hm'.
  { unfold m'. destruct s as [|n|n] eqn:Es; [simpl; lia| |lia].
    rewrite Z.shiftl_mul_pow2 by lia.
    assert (0 < 2 ^ Zpos n) by (apply Z.pow_pos_nonneg; lia). nia. }
  pose proof (Z.div_eucl_eq m' (Zpos mb)) as Hdiv.
  pose proof (Z.mod_pos_bound m' (Zpos mb)) as Hmod.
  unfold Z.modulo in Hmod.
  destruct (Z.div_eucl m' (Zpos mb)) as [q r]. cbn [fst snd].
  specialize (Hdiv ltac:(lia)). specialize (Hmod ltac:(lia)).
  assert (0 < 2 ^ s) as Hpow by (apply Z.pow_pos_nonneg; lia).
  assert (0 <= q <= 2 ^ s) as Hq by nia.
  rewrite <- Hs. lia.
Qed.

(** The share of a non-negative size in a total that is not smaller is
    [+0.0] or a positive float of at most one, up to its last place. *)
Lemma pct_at_most (size total : Z) :
  0 <= size <= total ->
  exists p, pct size total = Ok p /\ at_most 1 1 (-51) p.
Proof.
  intros H. unfold pct. destruct (total =? 0) eqn:E; [by exists fzero|].
  apply Z.eqb_neq in E. unfold int_true_div. rewrite (proj2 (Z.eqb_neq _ _) E).
  destruct total as [|mb|mb]; try lia.
  destruct size as [|ma|ma]; try lia.
  - exists (S754_zero false). by split.
  - cbn [exact SFdiv xorb].
    pose proof (div_core_value ma mb ltac:(lia)) as (H1 & H2 & H3).
    destruct (SFdiv_core_binary prec emax (Zpos ma) 0 (Zpos mb) 0)
      as [[q e] l]. cbn [fst snd] in *.
    pose proof (round_at_most q e l 1 1 1 (-51)
                  H1 ltac:(lia) ltac:(lia) ltac:(lia) ltac:(simpl; lia)
                  ltac:(lia) ltac:(lia) ltac:(lia) ltac:(lia) ltac:(lia))
      as Hp.
    destruct (binary_round_aux prec emax false q e l) as [| | |]
      eqn:Er; try done; by eexists.
Qed.

(** The product of a share and the float of a small integer [C]. *)
Lemma fmul_at_most (C L : Z) (mc : positive) (ec : Z) (p : float) :
  at_most 1 1 (-51) p ->
  Zpos mc = C * 2 ^ (- ec) -> ec <= -1 ->
  C * (2 ^ 51 + 1) < 2 ^ 51 * 2 ^ L -> 0 <= L <= 52 ->
  at_most (C * (2 ^ 51 + 1)) (2 ^ 51) (L - 52)
          (fmul p (S754_finite false mc ec)).
Proof.
  intros Hp Hc Hec HL HL0.
  assert (0 < C) as HC.
  { pose proof (pow2_pos (- ec) ltac:(lia)). nia. }
  destruct p as [sp| | |sp mp ep]; try done; cbn [at_most] in Hp.
  - subst sp. done.
  - destruct Hp as (-> & Hep & Hmp). unfold fmul. cbn [SFmul xorb].
    apply (round_at_most _ _ _ _ _ L); try lia.
    rewrite Pos2Z.inj_mul, Hc.
    replace (- (ep + ec)) with (- ep + - ec) by lia.
    rewrite pow2_split by lia.
    pose proof (pow2_pos (- ec) ltac:(lia)).
    assert (2 ^ 51 <= 2 ^ (- ep)) by (apply Z.pow_le_mono_r; lia).
    nia.
Qed.

(** The integer that [round] or a fixed-point format makes of a bounded
    float stays within the bound. *)
Lemma round_scaled_at_most (m : positive) (e k T N D E : Z) :
  e <= E -> E < 0 -> 0 < k -> 0 < D ->
  D * Zpos m <= N * 2 ^ (- e) + D ->
  0 <= (2 * T + 1) * D - 2 * k * N ->
  2 * k * D < 2 ^ (- E) * ((2 * T + 1) * D - 2 * k * N) ->
  0 <= round_scaled (Zpos m) k e <= T.
Proof.
  intros He HE Hk HD Hm Hgap Hslack. unfold round_scaled.
  replace (0 <=? e) with false by (symmetry; apply Z.leb_gt; lia).
  set (d := 2 ^ (- e)) in *.
  assert (2 ^ (- E) <= d) as Hd by (apply Z.pow_le_mono_r; lia).
  pose proof (pow2_pos (- E) ltac:(lia)) as Hd0.
  set (n := Zpos m * k).
  assert (0 <= n) as Hn by (unfold n; nia).
  assert (2 * n < (2 * T + 1) * d) as Hbound.
  { assert (2 * k * (D * Zpos m) <= 2 * k * (N * d + D)) as H1 by nia.
    assert (2 ^ (- E) * ((2 * T + 1) * D - 2 * k * N)
            <= d * ((2 * T + 1) * D - 2 * k * N)) as H2 by nia.
    assert (D * (2 * n) < D * ((2 * T + 1) * d)) as H3 by (unfold n; nia).
    nia. }
  pose proof (Z.div_mod n d ltac:(lia)) as Hdm.
  pose proof (Z.mod_pos_bound n d ltac:(lia)) as Hr.
  pose proof (Z.div_pos n d Hn ltac:(lia)) as Hq.
  set (q := n / d) in *. set (r := n mod d) in *.
  assert (q <= T) as HqT by nia.
  destruct (2 * r <? d) eqn:E1; [lia|]. apply Z.ltb_ge in E1.
  assert (q <= T - 1) as HqT' by nia.
  destruct (d <? 2 * r); [lia|]. destruct (Z.even q); lia.
Qed.

Lemma float_of_int_18 :
  float_of_int 18 = S754_finite false 5066549580791808 (-48).
Proof. reflexivity. Qed.

Lemma float_of_int_100 :
  float_of_int 100 = S754_finite false 7036874417766400 (-46).
Proof. reflexivity. Qed.

Lemma float_of_int_bar_w :
  float_of_int bar_w = S754_finite false 8479433673408512 (-44).
Proof. reflexivity. Qed.

(** X12: for a size between zero and the total, [bar] returns 18 cells, of
    which at most 18 and at least none are full. *)
Theorem bar_has_18_cells (size total : Z) :
  0 <= size <= total ->
  exists p filled,
    pct size total = Ok p /\
    bar_filled p 18 = Ok filled /\ 0 <= filled <= 18 /\
    bar p = Ok (bar_cells filled) /\
    length (bar_cells filled) = 18%nat.
Proof.
  intros H. destruct (pct_at_most size total H) as (p & Hp & Hb).
  assert (exists filled, bar_filled p 18 = Ok filled /\ 0 <= filled <= 18)
    as (filled & Hf & Hrange).
  { unfold bar_filled. rewrite float_of_int_18.
    pose proof (fmul_at_most 18 5 5066549580791808 (-48) p Hb
                  ltac:(reflexivity) ltac:(lia) ltac:(reflexivity) ltac:(lia))
      as Hx.
    destruct (fmul p _) as [s| | |s m e]; try done; cbn [at_most] in Hx.
    - exists 0. split; [done|lia].
    - destruct Hx as (-> & He & Hm). eexists. split; [reflexivity|].
      cbn [cond_Zopp].
      apply (round_scaled_at_most m e 1 18 (18 * (2 ^ 51 + 1)) (2 ^ 51)
               (5 - 52) He); try lia;
        try exact Hm; vm_compute; done. }
  exists p, filled. repeat split; try done; try lia.
  - unfold bar, bar_width. by rewrite Hf.
  - unfold bar_cells, repeat_char. rewrite length_app, !length_replicate. lia.
Qed.

Lemma bar_has_18_cells_witness :
  exists p filled,
    pct 1 3 = Ok p /\
    bar_filled p 18 = Ok filled /\ 0 <= filled <= 18 /\
    bar p = Ok (bar_cells filled) /\
    length (bar_cells filled) = 18%nat.
Proof. apply bar_has_18_cells. lia. Defined.

(** X13: for a size between zero and the total, the share is shown as a
    number of tenths between [0.0%] and [100.0%]. *)
Theorem share_text_range (size total : Z) :
  0 <= size <= total ->
  exists p tenths,
    pct size total = Ok p /\ 0 <= tenths <= 1000 /\
    pct_str p = fixed_digits 1 tenths ++ py "%".
Proof.
  intros H. destruct (pct_at_most size total H) as (p & Hp & Hb).
  pose proof (fmul_at_most 100 7 7036874417766400 (-46) p Hb
                ltac:(reflexivity) ltac:(lia) ltac:(reflexivity) ltac:(lia))
    as Hx.
  assert (exists tenths,
             0 <= tenths <= 1000 /\
             pct_str p = fixed_digits 1 tenths ++ py "%") as (t & Ht & Hs).
  { unfold pct_str. rewrite float_of_int_100.
    destruct (fmul p _) as [s| | |s m e]; try done; cbn [at_most] in Hx.
    - subst s. exists 0. split; [lia|done].
    - destruct Hx as (-> & He & Hm).
      exists (round_scaled (Zpos m) 10 e). split; [|done].
      apply (round_scaled_at_most m e 10 1000 (100 * (2 ^ 51 + 1)) (2 ^ 51)
               (7 - 52) He); try lia; try exact Hm; vm_compute; done. }
  by exists p, t.
Qed.

Lemma share_text_range_witness :
  exists p tenths,
    pct 2 3 = Ok p /\ 0 <= tenths <= 1000 /\
    pct_str p = fixed_digits 1 tenths ++ py "%".
Proof. apply share_text_range. lia. Defined.

(** X14: for a size between zero and the total, the width written for the
    filled bar of an image is a number of hundredths between [0.00] and the
    width of the track, [482.00]. *)
Theorem svg_fill_within_track (size total : Z) :
  0 <= size <= total ->
  exists p hundredths,
    pct size total = Ok p /\ 0 <= hundredths <= 100 * bar_w /\
    format_fixed 2 (max_zero (fmul p (float_of_int bar_w))) =
    fixed_digits 2 hundredths.
Proof.
  intros H. destruct (pct_at_most size total H) as (p & Hp & Hb).
  pose proof (fmul_at_most 482 9 8479433673408512 (-44) p Hb
                ltac:(reflexivity) ltac:(lia) ltac:(reflexivity) ltac:(lia))
    as Hx.
  assert (exists hundredths,
             0 <= hundredths <= 100 * bar_w /\
             format_fixed 2 (max_zero (fmul p (float_of_int bar_w))) =
             fixed_digits 2 hundredths) as (h & Hh & Hs).
  { rewrite float_of_int_bar_w. change (100 * bar_w) with 48200.
    destruct (fmul p _) as [s| | |s m e]; try done; cbn [at_most] in Hx.
    - subst s. exists 0. split; [lia|done].
    - destruct Hx as (-> & He & Hm).
      exists (round_scaled (Zpos m) 100 e). split; [|done].
      apply (round_scaled_at_most m e 100 48200 (482 * (2 ^ 51 + 1)) (2 ^ 51)
               (9 - 52) He); try lia; try exact Hm; vm_compute; done. }
  by exists p, h.
Qed.

Lemma svg_fill_within_track_witness :
  exists p hundredths,
    pct 2 3 = Ok p /\ 0 <= hundredths <= 100 * bar_w /\
    format_fixed 2 (max_zero (fmul p (float_of_int bar_w))) =
    fixed_digits 2 hundredths.
Proof. apply svg_fill_within_track. lia. Defined.

End Render.

(** ** The run of [main]: pages, totals, files *)

Module Main.

Import Aggregate Render.

(** One page of the answer, [data["user"]["repositories"]]: its
    repositories and its [pageInfo]. *)
Record page := Page {
  nodes : list repo;
  hasNextPage : bool;
  endCursor : option pystr
}.

(** The loop over the pages (lines 166-188).  [responses] holds what the
    calls of [graphql] return or raise, in the order of the calls; [cursor] is
    the cursor of the next request.  The result is the cursors of the requests
    made and, unless the loop still waits for a response that the list does
    not have, the totals or the exception that ends the loop. *)
Fixpoint fetch_from (exclude_repos exclude_langs : gset pystr)
    (responses : list (result page)) (cursor : option pystr)
    (totals : totals_t) : list (option pystr) * option (result totals_t) :=
  match responses with
  | [] => ([cursor], None)
  | Raise e :: _ => ([cursor], Some (Raise e))
  | Ok pg :: later =>
    match count_repos exclude_repos exclude_langs totals (nodes pg) with
    | Raise e => ([cursor], Some (Raise e))
    | Ok totals' =>
      if hasNextPage pg then
        let rest :=
          fetch_from exclude_repos exclude_langs later (endCursor pg) totals'
        in (cursor :: fst rest, snd rest)
      else ([cursor], Some (Ok totals'))
    end
  end.

Definition fetch (exclude_repos exclude_langs : gset pystr)
    (responses : list (result page))
  : list (option pystr) * option (result totals_t) :=
  fetch_from exclude_repos exclude_langs responses None [].

(** [os.environ], and the truth value of what [os.environ.get] returns. *)
Definition environ := gmap pystr pystr.

Definition set_in (env : environ) (key : pystr) : bool :=
  match env !! key with
  | Some (_ :: _) => true
  | _ => false
  end.

(** The files the script writes. *)
Record files := Files {
  light_svg : option pystr;
  dark_svg : option pystr;
  readme : option pystr
}.

(** How a run ends: [SystemExit] with a message, another exception, a wait
    for a response that is not in the list, or the normal end. *)
Inductive ending :=
| Exit (message : pystr)
| Failed (e : exn)
| Waiting
| Finished.

(** Lines 190-198: the ranking, the two images, the table, the README. *)
Definition write_files (fs : files) (totals : totals_t) : files * ending :=
  let items := ranking totals in
  let total_bytes := sum_sizes items in
  match make_svg items total_bytes false with
  | Raise e => (fs, Failed e)
  | Ok light =>
    let fs1 := Files (Some light) (dark_svg fs) (readme fs) in
    match make_svg items total_bytes true with
    | Raise e => (fs1, Failed e)
    | Ok dark =>
      let fs2 := Files (Some light) (Some dark) (readme fs) in
      match make_table items total_bytes with
      | Raise e => (fs2, Failed e)
      | Ok table =>
        match Readme.update_readme (readme fs2) table with
        | Raise e => (fs2, Failed e)
        | Ok text => (Files (Some light) (Some dark) (Some text), Finished)
        end
      end
    end
  end.

(** [main] (lines 157-198), on the environment, the responses of the
    server and the files present. *)
Definition main (env : environ) (responses : list (result page))
    (fs : files) : files * ending :=
  if negb (set_in env (py "GITHUB_TOKEN")) then
    (fs, Exit (py "Missing GITHUB_TOKEN."))
  else if negb (set_in env (py "GITHUB_REPOSITORY_OWNER") ||
                set_in env (py "GITHUB_ACTOR")) then
    (fs, Exit (py "Could not determine username."))
  else
    match snd (fetch EXCLUDE_REPOS EXCLUDE_LANGS responses) with
    | None => (fs, Waiting)
    | Some (Raise e) => (fs, Failed e)
    | Some (Ok totals) => write_files fs totals
    end.

(** *** The pages *)

Lemma fetch_from_pages (xr xl : gset pystr) (pages : list page) (last : page)
    (later : list (result page)) (cursor : option pystr) (totals : totals_t) :
  Forall (fun pg => hasNextPage pg = true) pages ->
  hasNextPage last = false ->
  snd (fetch_from xr xl (map Ok (pages ++ [last]) ++ later) cursor totals) =
    Some (count_repos xr xl totals (concat (map nodes (pages ++ [last])))) /\
  (is_ok (count_repos xr xl totals (concat (map nodes (pages ++ [last]))))
     = true ->
   fst (fetch_from xr xl (map Ok (pages ++ [last]) ++ later) cursor totals) =
     cursor :: map endCursor pages).
Proof.
  intros Hpages Hlast. revert cursor totals.
  induction Hpages as [|pg pages Hpg _ IH]; intros cursor totals;
    cbn [app map concat fetch_from].
  - rewrite app_nil_r.
    destruct (count_repos xr xl totals (nodes last)) as [t|e]; [|done].
    by rewrite Hlast.
  - rewrite count_repos_app.
    destruct (count_repos xr xl totals (nodes pg)) as [t|e]; [|done].
    cbn [bind]. rewrite Hpg. cbn [fst snd].
    destruct (IH (endCursor pg) t) as [IH1 IH2]. split; [done|].
    intros Hok. by rewrite IH2.
Qed.

(** X15: when the server answers with pages that each announce a next
    page, followed by one that announces none, the loop ends with the
    aggregation of the repositories of these pages taken together, asks for
    nothing after the last of them, and, when that aggregation returns, has
    sent the null cursor first and then the end cursor of each page before the
    last. *)
Theorem pages_are_concatenated (exclude_repos exclude_langs : gset pystr)
    (pages : list page) (last : page) (later : list (result page)) :
  Forall (fun pg => hasNextPage pg = true) pages ->
  hasNextPage last = false ->
  snd (fetch exclude_repos exclude_langs (map Ok (pages ++ [last]) ++ later)) =
    Some (aggregate exclude_repos exclude_langs
            (concat (map nodes (pages ++ [last])))) /\
  (forall totals,
     aggregate exclude_repos exclude_langs
       (concat (map nodes (pages ++ [last]))) = Ok totals ->
     fst (fetch exclude_repos exclude_langs
            (map Ok (pages ++ [last]) ++ later)) =
     None :: map endCursor pages).
Proof.
  intros Hpages Hlast. unfold fetch, aggregate.
  destruct (fetch_from_pages exclude_repos exclude_langs pages last later
              None [] Hpages Hlast) as [H1 H2].
  split; [done|]. intros totals Ht. apply H2. by rewrite Ht.
Qed.

Definition sample_pages : list page :=
  [Page [repo_of (py "site") [Edge (py "HTML") 700; Edge (py "CSS") 300]]
        true (Some (py "cursor-1"));
   Page [repo_of (py "tool") [Edge (py "Python") 900; Edge (py "HTML") 50]]
        true (Some (py "cursor-2"))].

Definition sample_last : page :=
  Page [repo_of (py "notes") [Edge (py "Jupyter Notebook") 12000]]
       false None.

Lemma pages_are_concatenated_witness :
  snd (fetch EXCLUDE_REPOS EXCLUDE_LANGS
         (map Ok (sample_pages ++ [sample_last]) ++ [Raise URLError])) =
    Some (aggregate EXCLUDE_REPOS EXCLUDE_LANGS
            (concat (map nodes (sample_pages ++ [sample_last])))) /\
  (forall totals,
     aggregate EXCLUDE_REPOS EXCLUDE_LANGS
       (concat (map nodes (sample_pages ++ [sample_last]))) = Ok totals ->
     fst (fetch EXCLUDE_REPOS EXCLUDE_LANGS
            (map Ok (sample_pages ++ [sample_last]) ++ [Raise URLError])) =
     None :: map endCursor sample_pages).
Proof.
  apply pages_are_concatenated; [repeat constructor|reflexivity].
Defined.

Lemma fetch_from_failed (xr xl : gset pystr) (pages : list page) (e : exn)
    (later : list (result page)) (cursor : option pystr)
    (totals totals' : totals_t) :
  Forall (fun pg => hasNextPage pg = true) pages ->
  count_repos xr xl totals (concat (map nodes pages)) = Ok totals' ->
  snd (fetch_from xr xl (map Ok pages ++ Raise e :: later) cursor totals) =
  Some (Raise e).
Proof.
  intros Hpages. revert cursor totals.
  induction Hpages as [|pg pages Hpg _ IH]; intros cursor totals;
    cbn [app map concat fetch_from]; [done|].
  rewrite count_repos_app.
  destruct (count_repos xr xl totals (nodes pg)) as [t|]; [|done].
  cbn [bind]. rewrite Hpg. cbn [snd]. apply IH.
Qed.

(** X16: when a request fails after pages that each announced a next page
    and were counted, the run ends with the exception of that request and
    every file is left as it was. *)
Theorem failed_request_ends_run (env : environ) (pages : list page)
    (e : exn) (later : list (result page)) (fs : files) (totals : totals_t) :
  set_in env (py "GITHUB_TOKEN") = true ->
  set_in env (py "GITHUB_REPOSITORY_OWNER") || set_in env (py "GITHUB_ACTOR")
    = true ->
  Forall (fun pg => hasNextPage pg = true) pages ->
  aggregate EXCLUDE_REPOS EXCLUDE_LANGS (concat (map nodes pages)) = Ok totals ->
  main env (map Ok pages ++ Raise e :: later) fs = (fs, Failed e).
Proof.
  intros Htoken Howner Hpages Hcount. unfold main.
  rewrite Htoken, Howner. cbn [negb]. unfold fetch.
  by rewrite (fetch_from_failed _ _ pages e later None [] totals Hpages Hcount).
Qed.

Definition sample_env : environ :=
  {[ py "GITHUB_TOKEN" := py "secret"; py "GITHUB_ACTOR" := py "someone" ]}.

Lemma failed_request_ends_run_witness :
  main sample_env
    (map Ok sample_pages ++ Raise (RuntimeError (JArr [JStr (py "limit")])) :: [])
    (Files None None (Some (py "# Title"))) =
  (Files None None (Some (py "# Title")),
   Failed (RuntimeError (JArr [JStr (py "limit")]))).
Proof.
  eapply failed_request_ends_run.
  - vm_compute. reflexivity.
  - vm_compute. reflexivity.
  - repeat constructor.
  - vm_compute. reflexivity.
Defined.

(** *** The characters of the table *)

(** The table brings no backslash and no sign that opens a marker of its
    own: one is there only when a language name holds it. *)
Section TableCharacters.

Variable c : N.
Hypothesis reserved : c = backslash \/ c = 60%N.















End TableCharacters.




(** *** The whole run *)





(** The bytes of a list of edges. *)
Definition edge_bytes (es : list edge) : Z :=
  foldr (fun e acc => size e + acc) 0 es.

Lemma sum_sizes_add_total (totals : totals_t) (lang : pystr) (n : Z) :
  sum_sizes (add_total totals lang n) = sum_sizes totals + n.
Proof.
  induction totals as [|[k v] rest IH]; [simpl; lia|].
  cbn [add_total]. destruct (bool_decide (k = lang)); simpl in *; lia.
Qed.

Lemma sum_sizes_foldl_add_edge (es : list edge) (totals : totals_t) :
  sum_sizes (foldl add_edge totals es) = sum_sizes totals + edge_bytes es.
Proof.
  revert totals; induction es as [|e es IH]; intros totals; [simpl; lia|].
  cbn [foldl edge_bytes foldr]. rewrite IH. fold (edge_bytes es).
  unfold add_edge. rewrite sum_sizes_add_total. lia.
Qed.

(** X19: the grand total that every share is divided by is the sum of the
    sizes of all counted edges, of all languages, shown or not. *)
Theorem grand_total_counts_every_edge (exclude_repos exclude_langs : gset pystr)
    (repos : list repo) (totals : totals_t) :
  aggregate exclude_repos exclude_langs repos = Ok totals ->
  exists es,
    all_counted exclude_repos exclude_langs repos = Ok es /\
    sum_sizes (ranking totals) = edge_bytes es.
Proof.
  unfold aggregate. rewrite count_repos_counted.
  destruct (all_counted exclude_repos exclude_langs repos) as [es|]; [|done].
  cbn [rmap bind]. intros [= <-]. exists es. split; [done|].
  rewrite (sum_sizes_Permutation _ _ (ranking_Permutation _)).
  by rewrite sum_sizes_foldl_add_edge.
Qed.

Lemma grand_total_counts_every_edge_witness :
  exists es,
    all_counted EXCLUDE_REPOS EXCLUDE_LANGS sample_repos = Ok es /\
    sum_sizes
      (ranking [(py "HTML", 750); (py "CSS", 300); (py "Python", 900)]) =
    edge_bytes es.
Proof.
  apply (grand_total_counts_every_edge EXCLUDE_REPOS EXCLUDE_LANGS).
  vm_compute. reflexivity.
Defined.

(** *** A second run *)





(** *** The exits *)

Lemma write_files_no_exit (fs fs' : files) (totals : totals_t)
    (message : pystr) :
  write_files fs totals <> (fs', Exit message).
Proof.
  unfold write_files.
  destruct (make_svg _ _ false); [|done].
  destruct (make_svg _ _ true); [|done].
  destruct (make_table _ _); [|done].
  by destruct (Readme.update_readme _ _).
Qed.

(** X21: the run ends with [SystemExit] in two cases only, whatever the
    server would answer, and then with every file as it was: the token is
    absent or empty
    (message [Missing GITHUB_TOKEN.]), or the token is set and both the
    repository owner and the actor are absent or empty (message
    [Could not determine username.]).  An empty owner falls back to the
    actor. *)
Theorem exit_only_from_environment (env : environ)
    (responses : list (result page)) (fs fs' : files) (message : pystr) :
  main env responses fs = (fs', Exit message) <->
  fs' = fs /\
  ((set_in env (py "GITHUB_TOKEN") = false /\
    message = py "Missing GITHUB_TOKEN.") \/
   (set_in env (py "GITHUB_TOKEN") = true /\
    set_in env (py "GITHUB_REPOSITORY_OWNER") = false /\
    set_in env (py "GITHUB_ACTOR") = false /\
    message = py "Could not determine username.")).
Proof.
  unfold main.
  destruct (set_in env (py "GITHUB_TOKEN")); cbn [negb].
  - destruct (set_in env (py "GITHUB_REPOSITORY_OWNER")); cbn [orb negb].
    + split.
      * destruct (snd (fetch _ _ _)) as [[totals|e]|]; try done.
        intros H. by apply write_files_no_exit in H.
      * intros [_ [[? _]|(_ & ? & _)]]; done.
    + destruct (set_in env (py "GITHUB_ACTOR")); cbn [negb].
      * split.
        -- destruct (snd (fetch _ _ _)) as [[totals|e]|]; try done.
           intros H. by apply write_files_no_exit in H.
        -- intros [_ [[? _]|(_ & _ & ? & _)]]; done.
      * split.
        -- intros [= <- <-]. split; [done|]. by right.
        -- intros [-> [[? _]|(_ & _ & _ & ->)]]; done.
  - split.
    + intros [= <- <-]. split; [done|]. by left.
    + intros [-> [[_ ->]|[? _]]]; done.
Qed.

End Main.
